(** * State machines: AST model and wire serialization

    A shallow embedding of [statemachine_ast/StateMachine.py] and of the
    model part of [server/LRP.py].

    Python objects are shared and mutable: a state is referenced by its
    parent, by its children, by the transitions that leave and reach it,
    by initial pseudo states and by runtime snapshots.  The embedding keeps
    that sharing: objects live in a store, and a reference is an address
    into it.  Methods that only read take the store as an argument;
    methods that mutate return the new store. *)

From stdpp Require Import base option list relations gmap sets strings.
From Stdlib Require Import ZArith Lia.

Local Open Scope string_scope.

Set Warnings "-register-all".

(** ** Python values that reach the wire *)

(** The part of Python's value universe that [to_dict] produces: [None],
    [str], [int], [list] and [dict] with string keys. *)
Inductive pyval : Type :=
  | PNone
  | PStr (s : string)
  | PInt (z : Z)
  | PList (l : list pyval)
  | PDict (d : gmap string pyval).

(** [x] for an [Optional[str]] field. *)
Definition opt_str (o : option string) : pyval :=
  match o with
  | None => PNone
  | Some s => PStr s
  end.

(** [x] for an [Optional[int]] field. *)
Definition opt_int (o : option Z) : pyval :=
  match o with
  | None => PNone
  | Some z => PInt z
  end.

(** ** Exceptions and outcomes *)

(** A raised exception: its class name and its message. *)
Record exn : Type := mk_exn { exn_class : string; exn_msg : string }.

(** [ValueError('No initial state.')], raised by [CompositeState]. *)
Definition No_initial_state : exn := mk_exn "ValueError" "No initial state.".

(** What running a method gives.  [Done] and [Raised] are the two ways a
    Python call ends.  [OutOfFuel] is the recursion not having finished
    within the given number of nested calls.  [Dangling] is a reference to
    an address where no object lives; no Python execution shows it, and the
    theorems exclude it by asking the store to be closed. *)
Inductive outcome (A : Type) : Type :=
  | Done (a : A)
  | Raised (e : exn)
  | OutOfFuel
  | Dangling.

Arguments Done {A} a.
Arguments Raised {A} e.
Arguments OutOfFuel {A}.
Arguments Dangling {A}.

(** Sequencing: the first call that does not return ends the whole
    computation.  With the instance, [x ← m; k] is stdpp's notation. *)
#[export] Instance outcome_bind : MBind outcome := λ A B k m,
  match m with
  | Done a => k a
  | Raised e => Raised e
  | OutOfFuel => OutOfFuel
  | Dangling => Dangling
  end.

(** [list(map(f, l))] where [f] may fail: left to right, stopping at the
    first call that fails. *)
Fixpoint map_outcome {A B : Type} (f : A → outcome B) (l : list A) : outcome (list B) :=
  match l with
  | [] => Done []
  | x :: l' => y ← f x; ys ← map_outcome f l'; Done (y :: ys)
  end.

(** Reading through a reference. *)
Definition deref {A : Type} (o : option A) : outcome A :=
  match o with
  | Some a => Done a
  | None => Dangling
  end.

(** ** Objects *)

(** A reference to an object: its address in the store. *)
Abbreviation addr := nat (only parsing).

(** [server/LRP.py], class [Location].  The constructor takes its
    arguments in the order [line, endLine, column, endColumn]. *)
Module Location.
Record t : Type := mk { line : Z; column : Z; endLine : Z; endColumn : Z }.
Definition init (line endLine column endColumn : Z) : t :=
  {| line := line; column := column; endLine := endLine; endColumn := endColumn |}.
End Location.

(** [server/LRP.py], class [ModelElement].  [id] is [str(uuid.uuid4())],
    drawn when the object is built: constructors take it as an argument. *)
Module ModelElement.
Record t : Type := mk { id : string; type : string }.
Definition init (new_id type : string) : t := {| id := new_id; type := type |}.
End ModelElement.

(** [server/LRP.py], class [ASTElement(ModelElement)]. *)
Module ASTElement.
Record t : Type := mk { base : ModelElement.t; location : option Location.t }.
Definition init (new_id type : string) (location : option Location.t) : t :=
  {| base := ModelElement.init new_id type; location := location |}.
Definition id (self : t) : string := ModelElement.id (base self).
End ASTElement.

(** [StateMachine.py], class [InitialState]: a pseudo state, not a model
    element.  [parent_state] is read from the target once, when the
    pseudo state is built. *)
Module InitialState.
Record t : Type := mk { target : addr; parent_state : option addr }.
End InitialState.

(** [StateMachine.py], class [Transition(ASTElement)]. *)
Module Transition.
Record t : Type := mk {
  ast : ASTElement.t;
  source : addr;
  target : addr;
  input : option string;
  output : option string
}.
End Transition.

(** [StateMachine.py], class [State(ASTElement)] and its two subclasses.
    [SimpleState] adds nothing; [CompositeState] adds [initial_state]. *)
Module State.
Inductive kind : Type :=
  | Simple
  | Composite (initial_state : option InitialState.t).
Record t : Type := mk {
  ast : ASTElement.t;
  name : option string;
  parent_state : option addr;
  is_final : bool;
  outgoing_transitions : list addr;
  incoming_transitions : list addr;
  states : list addr;
  subclass : kind
}.
Definition id (self : t) : string := ASTElement.id (ast self).
Definition set_outgoing_transitions (l : list addr) (self : t) : t :=
  mk (ast self) (name self) (parent_state self) (is_final self)
     l (incoming_transitions self) (states self) (subclass self).
Definition set_incoming_transitions (l : list addr) (self : t) : t :=
  mk (ast self) (name self) (parent_state self) (is_final self)
     (outgoing_transitions self) l (states self) (subclass self).
End State.

(** [StateMachine.py], class [StateMachine(ASTElement)]. *)
Module StateMachine.
Record t : Type := mk {
  ast : ASTElement.t;
  name : string;
  initial_state : option InitialState.t;
  states : list addr
}.
Definition init (new_id name : string) (location : option Location.t) : t :=
  {| ast := ASTElement.init new_id "stateMachine.stateMachine" location;
     name := name; initial_state := None; states := [] |}.
End StateMachine.

(** Modelled from the spec: the class [Runtime] of [server/Runtime.py] is
    imported by [server/LRP.py] but is not among the sources.  The spec
    describes it as an object exposing [inputs],
    [next_consumed_input_index], [current_state] and [outputs];
    [RuntimeState.__init__] also reads its [next_transition]. *)
Module Runtime.
Record t : Type := mk {
  inputs : list string;
  next_consumed_input_index : option Z;
  next_transition : option addr;
  current_state : addr;
  outputs : list string
}.
End Runtime.

(** [server/LRP.py], class [RuntimeState(ModelElement)]. *)
Module RuntimeState.
Record t : Type := mk {
  base : ModelElement.t;
  inputs : list string;
  next_consumed_input_index : option Z;
  current_state : addr;
  outputs : list string
}.
End RuntimeState.

(** ** The store *)

Record store : Type := mk_store {
  state_objs : gmap nat State.t;
  transition_objs : gmap nat Transition.t
}.

Definition empty_store : store := mk_store ∅ ∅.

Definition get_state (σ : store) (a : addr) : outcome State.t :=
  deref (state_objs σ !! a).

Definition get_transition (σ : store) (a : addr) : outcome Transition.t :=
  deref (transition_objs σ !! a).

(** In-place update of the state at [a]. *)
Definition update_state (f : State.t → State.t) (a : addr) (σ : store) : store :=
  mk_store (alter f a (state_objs σ)) (transition_objs σ).

(** ** Constructors *)

(** [State.__init__], reached through [SimpleState.__init__]. *)
Definition SimpleState_init (σ : store) (new_id : string) (name : option string)
    (parent_state : option addr) (is_final : bool) (location : option Location.t)
    : store * addr :=
  let a := fresh (dom (state_objs σ)) in
  let self := State.mk (ASTElement.init new_id "stateMachine.state" location)
                name parent_state is_final [] [] [] State.Simple in
  (mk_store (<[a := self]> (state_objs σ)) (transition_objs σ), a).

(** [CompositeState.__init__]: [super().__init__(name, None, False, location)]. *)
Definition CompositeState_init (σ : store) (new_id : string) (name : string)
    (location : option Location.t) : store * addr :=
  let a := fresh (dom (state_objs σ)) in
  let self := State.mk (ASTElement.init new_id "stateMachine.state" location)
                (Some name) None false [] [] [] (State.Composite None) in
  (mk_store (<[a := self]> (state_objs σ)) (transition_objs σ), a).

(** [InitialState.__init__]. *)
Definition InitialState_init (σ : store) (target : addr) : outcome InitialState.t :=
  tgt ← get_state σ target;
  Done (InitialState.mk target (State.parent_state tgt)).

(** [Transition.__init__]. *)
Definition Transition_init (σ : store) (new_id : string) (source target : addr)
    (input output : option string) (location : option Location.t) : store * addr :=
  let a := fresh (dom (transition_objs σ)) in
  let self := Transition.mk (ASTElement.init new_id "stateMachine.transition" location)
                source target input output in
  (mk_store (state_objs σ) (<[a := self]> (transition_objs σ)), a).

(** [RuntimeState.__init__]. *)
Definition RuntimeState_init (new_id : string) (runtime : Runtime.t) : RuntimeState.t :=
  {| RuntimeState.base := ModelElement.init new_id "stateMachine.runtimeState";
     RuntimeState.inputs := Runtime.inputs runtime;
     RuntimeState.next_consumed_input_index :=
       match Runtime.next_transition runtime with
       | None => None
       | Some _ => Runtime.next_consumed_input_index runtime
       end;
     RuntimeState.current_state := Runtime.current_state runtime;
     RuntimeState.outputs := Runtime.outputs runtime |}.

(** ** Mutation of the adjacency lists *)

(** [l.append(x)] on the outgoing list of the state at [a]. *)
Definition append_outgoing (t : addr) (a : addr) (σ : store) : store :=
  update_state (λ s, State.set_outgoing_transitions (State.outgoing_transitions s ++ [t]) s) a σ.

(** [l.append(x)] on the incoming list of the state at [a]. *)
Definition append_incoming (t : addr) (a : addr) (σ : store) : store :=
  update_state (λ s, State.set_incoming_transitions (State.incoming_transitions s ++ [t]) s) a σ.

(** [State.create_transition]: builds the transition, then appends it to
    [self.outgoing_transitions] and to [target.incoming_transitions]. *)
Definition create_transition (σ : store) (new_id : string) (self target : addr)
    (input output : option string) (location : option Location.t) : store :=
  let '(σ1, transition) := Transition_init σ new_id self target input output location in
  let σ2 := append_outgoing transition self σ1 in
  append_incoming transition target σ2.

(** [State.add_transitions]: a first loop appends every transition to
    [self.outgoing_transitions]; a second loop appends every transition to
    the incoming list of its own target. *)
Definition add_transitions (σ : store) (self : addr) (transitions : list addr) : outcome store :=
  let σ1 := foldl (λ σ' transition, append_outgoing transition self σ') σ transitions in
  foldl (λ acc transition,
           σ' ← acc;
           t ← get_transition σ' transition;
           Done (append_incoming transition (Transition.target t) σ'))
        (Done σ1) transitions.

(** ** Queries on the tree *)

(** [InitialState.get_nested_initial_state]: asks the target.
    [resolve] is the dynamically dispatched method of the target. *)
Definition InitialState_get_nested_initial_state (resolve : addr → outcome addr)
    (self : InitialState.t) : outcome addr :=
  resolve (InitialState.target self).

(** [SimpleState.get_nested_initial_state]: [State]'s, which returns [self]. *)
Definition SimpleState_get_nested_initial_state (self : addr) : outcome addr :=
  Done self.

(** [CompositeState.get_nested_initial_state]. *)
Definition CompositeState_get_nested_initial_state (resolve : addr → outcome addr)
    (initial_state : option InitialState.t) : outcome addr :=
  match initial_state with
  | None => Raised No_initial_state
  | Some i => InitialState_get_nested_initial_state resolve i
  end.

(** [state.get_nested_initial_state()], dispatched on the class of the
    object at [a]; [fuel] bounds the number of nested calls. *)
Fixpoint get_nested_initial_state (fuel : nat) (σ : store) (a : addr) : outcome addr :=
  match fuel with
  | 0 => OutOfFuel
  | S fuel' =>
      self ← get_state σ a;
      match State.subclass self with
      | State.Simple => SimpleState_get_nested_initial_state a
      | State.Composite initial_state =>
          CompositeState_get_nested_initial_state
            (get_nested_initial_state fuel' σ) initial_state
      end
  end.

(** [State.get_depth]. *)
Fixpoint get_depth (fuel : nat) (σ : store) (a : addr) : outcome nat :=
  match fuel with
  | 0 => OutOfFuel
  | S fuel' =>
      self ← get_state σ a;
      match State.parent_state self with
      | None => Done 0
      | Some p => d ← get_depth fuel' σ p; Done (d + 1)
      end
  end.

(** ** Serialization *)

(** [Location.to_dict]: the object's [__dict__]. *)
Definition Location_to_dict (self : Location.t) : gmap string pyval :=
  {[ "line" := PInt (Location.line self);
     "column" := PInt (Location.column self);
     "endLine" := PInt (Location.endLine self);
     "endColumn" := PInt (Location.endColumn self) ]}.

(** [ModelElement.construct_dict]. *)
Definition ModelElement_construct_dict (self : ModelElement.t)
    (attributes children refs : gmap string pyval) : gmap string pyval :=
  {[ "id" := PStr (ModelElement.id self);
     "type" := PStr (ModelElement.type self);
     "attributes" := PDict attributes;
     "children" := PDict children;
     "refs" := PDict refs ]}.

(** [ASTElement.construct_dict]: the base record, with a ['location'] entry
    added when the element has a location. *)
Definition ASTElement_construct_dict (self : ASTElement.t)
    (attributes children refs : gmap string pyval) : gmap string pyval :=
  match ASTElement.location self with
  | None => ModelElement_construct_dict (ASTElement.base self) attributes children refs
  | Some location =>
      <[ "location" := PDict (Location_to_dict location) ]>
        (ModelElement_construct_dict (ASTElement.base self) attributes children refs)
  end.

(** [transition.target.is_final]. *)
Definition target_is_final (σ : store) (transition : Transition.t) : outcome bool :=
  tgt ← get_state σ (Transition.target transition);
  Done (State.is_final tgt).

(** [Transition.to_dict]. *)
Definition Transition_to_dict (σ : store) (self : Transition.t) : outcome pyval :=
  let refs : gmap string pyval := ∅ in
  tgt ← get_state σ (Transition.target self);
  let refs := if negb (State.is_final tgt)
              then <[ "target" := PStr (State.id tgt) ]> refs
              else refs in
  Done (PDict (ASTElement_construct_dict (Transition.ast self)
                 {[ "input" := opt_str (Transition.input self);
                    "ouptut" := opt_str (Transition.output self) ]}
                 ∅
                 refs)).

(** [list(filter(p, l))] where [p] reads the store. *)
Fixpoint filter_outcome {A : Type} (p : A → outcome bool) (l : list A) : outcome (list A) :=
  match l with
  | [] => Done []
  | x :: l' =>
      b ← p x;
      r ← filter_outcome p l';
      Done (if (b : bool) then x :: r else r)
  end.

(** [State.construct_dict].  In [{'name': ..., **attributes}] the entries of
    [attributes] win over ['name'], and likewise for [children]: the union
    of maps prefers its left argument. *)
Definition State_construct_dict (σ : store) (self : State.t)
    (attributes children refs : gmap string pyval) : outcome pyval :=
  outgoing ← map_outcome (get_transition σ) (State.outgoing_transitions self);
  transitions ←
    filter_outcome (λ transition, b ← target_is_final σ transition; Done (negb b)) outgoing;
  final_transitions ← filter_outcome (target_is_final σ) outgoing;
  ts ← map_outcome (Transition_to_dict σ) transitions;
  fts ← map_outcome (Transition_to_dict σ) final_transitions;
  Done (PDict (ASTElement_construct_dict (State.ast self)
                 (attributes ∪ {[ "name" := opt_str (State.name self) ]})
                 (children ∪ {[ "transitions" := PList ts;
                                "final transitions" := PList fts ]})
                 refs)).

(** [SimpleState.to_dict]. *)
Definition SimpleState_to_dict (σ : store) (self : State.t) : outcome pyval :=
  State_construct_dict σ self ∅ ∅ ∅.

(** [CompositeState.to_dict].  [to_dict] is the dynamically dispatched
    method of the contained states. *)
Definition CompositeState_to_dict (to_dict : addr → outcome pyval) (σ : store)
    (self : State.t) (initial_state : option InitialState.t) : outcome pyval :=
  match initial_state with
  | None => Raised No_initial_state
  | Some i =>
      sts ← map_outcome to_dict (State.states self);
      tgt ← get_state σ (InitialState.target i);
      State_construct_dict σ self
        ∅
        {[ "states" := PList sts ]}
        {[ "initialState" := PStr (State.id tgt) ]}
  end.

(** [state.to_dict()], dispatched on the class of the object at [a]. *)
Fixpoint State_to_dict (fuel : nat) (σ : store) (a : addr) : outcome pyval :=
  match fuel with
  | 0 => OutOfFuel
  | S fuel' =>
      self ← get_state σ a;
      match State.subclass self with
      | State.Simple => SimpleState_to_dict σ self
      | State.Composite initial_state =>
          CompositeState_to_dict (State_to_dict fuel' σ) σ self initial_state
      end
  end.

(** [StateMachine.to_dict]. *)
Definition StateMachine_to_dict (fuel : nat) (σ : store) (self : StateMachine.t)
    : outcome pyval :=
  sts ← map_outcome (State_to_dict fuel σ) (StateMachine.states self);
  init ← match StateMachine.initial_state self return outcome string with
         | None => Done ""
         | Some i => tgt ← get_state σ (InitialState.target i); Done (State.id tgt)
         end;
  Done (PDict (ASTElement_construct_dict (StateMachine.ast self)
                 {[ "name" := PStr (StateMachine.name self) ]}
                 {[ "states" := PList sts ]}
                 {[ "initialState" := PStr init ]})).

(** The attributes every runtime snapshot carries. *)
Definition RuntimeState_attributes (self : RuntimeState.t) : gmap string pyval :=
  {[ "inputs" := PList (PStr <$> RuntimeState.inputs self);
     "nextConsumedInputIndex" := opt_int (RuntimeState.next_consumed_input_index self);
     "outputs" := PList (PStr <$> RuntimeState.outputs self) ]}.

(** [RuntimeState.to_dict]. *)
Definition RuntimeState_to_dict (σ : store) (self : RuntimeState.t) : outcome pyval :=
  current_state ← get_state σ (RuntimeState.current_state self);
  if State.is_final current_state
  then Done (PDict (ModelElement_construct_dict (RuntimeState.base self)
                      (<[ "currentState" := PStr "FINAL" ]> (RuntimeState_attributes self))
                      ∅
                      ∅))
  else Done (PDict (ModelElement_construct_dict (RuntimeState.base self)
                      (RuntimeState_attributes self)
                      ∅
                      {[ "currentState" := PStr (State.id current_state) ]})).

(** ** Shape of wire records *)

(** The five keys of [ModelElement.construct_dict]. *)
Definition base_keys : gset string :=
  {[ "id"; "type"; "attributes"; "children"; "refs" ]}.

(** [v] is a wire record of an element whose location is [loc]: a dict
    with the five base keys and, only when [loc] is set, a sixth key
    ['location'] holding the four integers of [loc]. *)
Definition wire_record (loc : option Location.t) (v : pyval) : Prop :=
  ∃ d, v = PDict d ∧
    match loc with
    | None => dom d = base_keys
    | Some l =>
        dom d = base_keys ∪ {[ "location" ]} ∧
        d !! "location" =
          Some (PDict {[ "line" := PInt (Location.line l);
                         "column" := PInt (Location.column l);
                         "endLine" := PInt (Location.endLine l);
                         "endColumn" := PInt (Location.endColumn l) ]})
    end.

(** [attributes], [children] and [refs] of a wire record. *)
Definition field (k : string) (v : pyval) : option (gmap string pyval) :=
  match v with
  | PDict d => match d !! k with Some (PDict x) => Some x | _ => None end
  | _ => None
  end.

(** ** Example trees *)

(** The machine of the end-to-end example: a simple state [A] (address 0),
    a final state [B] (address 1, with a location) and one transition
    [A --x/y--> B] (address 0). *)
Definition door_A : State.t :=
  State.mk (ASTElement.init "id-A" "stateMachine.state" None)
    (Some "A") None false [0] [] [] State.Simple.

Definition door_B : State.t :=
  State.mk (ASTElement.init "id-B" "stateMachine.state" (Some (Location.init 3 3 5 12)))
    (Some "B") None true [] [0] [] State.Simple.

Definition door_transition : Transition.t :=
  Transition.mk (ASTElement.init "id-t" "stateMachine.transition" None)
    0 1 (Some "x") (Some "y").

Definition door_store : store :=
  mk_store (<[ 0 := door_A ]> (<[ 1 := door_B ]> ∅)) (<[ 0 := door_transition ]> ∅).

Definition door_machine : StateMachine.t :=
  StateMachine.mk (ASTElement.init "id-M" "stateMachine.stateMachine" None)
    "M" (Some (InitialState.mk 0 None)) [0; 1].

(** A runtime that has reached [B], with no transition pending but an
    index still recorded. *)
Definition door_runtime : Runtime.t :=
  Runtime.mk ["x"] (Some 1%Z) None 1 ["y"].

(** A runtime waiting in [A] with the transition pending. *)
Definition door_runtime_pending : Runtime.t :=
  Runtime.mk ["x"] (Some 0%Z) (Some 0) 0 [].

(** A nested machine: composite [S1] (address 0) contains composite [S2]
    (address 1), which contains the simple state [S3] (address 2) and the
    final state [F] (address 3).  The initial pseudo state of [S1] targets
    [S2], that of [S2] targets [S3].  [S3] has three outgoing transitions,
    in this order: a loop, one to [F], another loop. *)
Definition nested_S1 : State.t :=
  State.mk (ASTElement.init "id-S1" "stateMachine.state" (Some (Location.init 1 9 1 2)))
    (Some "S1") None false [] [] [1] (State.Composite (Some (InitialState.mk 1 (Some 0)))).

Definition nested_S2 : State.t :=
  State.mk (ASTElement.init "id-S2" "stateMachine.state" None)
    (Some "S2") (Some 0) false [] [] [2; 3]
    (State.Composite (Some (InitialState.mk 2 (Some 1)))).

Definition nested_S3 : State.t :=
  State.mk (ASTElement.init "id-S3" "stateMachine.state" None)
    (Some "S3") (Some 1) false [0; 1; 2] [0; 2] [] State.Simple.

Definition nested_F : State.t :=
  State.mk (ASTElement.init "id-F" "stateMachine.state" None)
    None (Some 1) true [] [1] [] State.Simple.

Definition nested_t0 : Transition.t :=
  Transition.mk (ASTElement.init "id-t0" "stateMachine.transition" None)
    2 2 (Some "a") None.

Definition nested_t1 : Transition.t :=
  Transition.mk (ASTElement.init "id-t1" "stateMachine.transition" None)
    2 3 (Some "b") None.

Definition nested_t2 : Transition.t :=
  Transition.mk (ASTElement.init "id-t2" "stateMachine.transition" None)
    2 2 (Some "c") (Some "d").

Definition nested_store : store :=
  mk_store
    (<[ 0 := nested_S1 ]> (<[ 1 := nested_S2 ]> (<[ 2 := nested_S3 ]> (<[ 3 := nested_F ]> ∅))))
    (<[ 0 := nested_t0 ]> (<[ 1 := nested_t1 ]> (<[ 2 := nested_t2 ]> ∅))).

Definition nested_machine : StateMachine.t :=
  StateMachine.mk (ASTElement.init "id-N" "stateMachine.stateMachine" None)
    "N" (Some (InitialState.mk 0 None)) [0].

(** The nested machine before its initial pseudo state is set. *)
Definition nested_machine_unset : StateMachine.t :=
  StateMachine.mk (ASTElement.init "id-N" "stateMachine.stateMachine" None)
    "N" None [0].

(** A machine under construction: neither the machine nor its only state,
    a composite (address 0), has its initial pseudo state yet. *)
Definition orphan_C : State.t :=
  State.mk (ASTElement.init "id-C" "stateMachine.state" None)
    (Some "C") None false [] [] [] (State.Composite None).

Definition orphan_store : store :=
  mk_store (<[ 0 := orphan_C ]> ∅) ∅.

Definition orphan_machine : StateMachine.t :=
  StateMachine.mk (ASTElement.init "id-O" "stateMachine.stateMachine" None)
    "O" None [0].

(** The same machine without any state. *)
Definition blank_machine : StateMachine.t :=
  StateMachine.init "id-O" "O" None.

(** ** Initial chains *)

(** [initial_chain σ n c t]: starting at [c] and following [n] times the
    target of a composite state's initial pseudo state, one reaches the
    simple state [t]. *)
Inductive initial_chain (σ : store) : nat → addr → addr → Prop :=
  | chain_simple s self :
      state_objs σ !! s = Some self →
      State.subclass self = State.Simple →
      initial_chain σ 0 s s
  | chain_composite n c self i t :
      state_objs σ !! c = Some self →
      State.subclass self = State.Composite (Some i) →
      initial_chain σ n (InitialState.target i) t →
      initial_chain σ (S n) c t.

(** ** Stable partitions *)

(** [interleaved l1 l2 l]: [l] is made of the elements of [l1] and of [l2],
    each occurrence going to one side, both sides in the order of [l]. *)
Inductive interleaved {A : Type} : list A → list A → list A → Prop :=
  | interleaved_nil : interleaved [] [] []
  | interleaved_left x l1 l2 l :
      interleaved l1 l2 l → interleaved (x :: l1) l2 (x :: l)
  | interleaved_right x l1 l2 l :
      interleaved l1 l2 l → interleaved l1 (x :: l2) (x :: l).

(** The transition at [a] has a target whose [is_final] is [b]. *)
Definition targets_final (σ : store) (b : bool) (a : addr) : Prop :=
  ∃ t tgt,
    transition_objs σ !! a = Some t ∧
    state_objs σ !! Transition.target t = Some tgt ∧
    State.is_final tgt = b.

(** [v] is the record of the transition at [a]. *)
Definition record_of (σ : store) (a : addr) (v : pyval) : Prop :=
  ∃ t, transition_objs σ !! a = Some t ∧ Transition_to_dict σ t = Done v.

(** ** Adjacency *)

(** Number of times the transition [t] occurs in a list of transitions. *)
Definition occurrences (t : addr) (l : list addr) : nat :=
  count_occ Nat.eq_dec l t.

(** Every transition of the store has its two end states in the store,
    occurs exactly once in the outgoing list of its source and in no other
    outgoing list, and exactly once in the incoming list of its target and
    in no other incoming list. *)
Definition adjacency_ok (σ : store) : Prop :=
  ∀ t tr, transition_objs σ !! t = Some tr →
    is_Some (state_objs σ !! Transition.source tr) ∧
    is_Some (state_objs σ !! Transition.target tr) ∧
    ∀ s self, state_objs σ !! s = Some self →
      occurrences t (State.outgoing_transitions self) =
        (if decide (s = Transition.source tr) then 1 else 0) ∧
      occurrences t (State.incoming_transitions self) =
        (if decide (s = Transition.target tr) then 1 else 0).

(** The lists hold no address at which there is no transition. *)
Definition no_stray_transition (σ : store) : Prop :=
  ∀ t, transition_objs σ !! t = None →
    ∀ s self, state_objs σ !! s = Some self →
      occurrences t (State.outgoing_transitions self) = 0 ∧
      occurrences t (State.incoming_transitions self) = 0.

(** A tree as the constructors leave it: states only, with empty
    adjacency lists. *)
Definition fresh_tree (σ : store) : Prop :=
  transition_objs σ = ∅ ∧
  ∀ s self, state_objs σ !! s = Some self →
    State.outgoing_transitions self = [] ∧ State.incoming_transitions self = [].

(** The arguments of one call [source.create_transition(target, input,
    output, location)], with the id drawn for the new transition. *)
Record call : Type := mk_call {
  call_new_id : string;
  call_source : addr;
  call_target : addr;
  call_input : option string;
  call_output : option string;
  call_location : option Location.t
}.

Definition run_call (σ : store) (c : call) : store :=
  create_transition σ (call_new_id c) (call_source c) (call_target c)
    (call_input c) (call_output c) (call_location c).

(** A sequence of [create_transition] calls. *)
Definition create_transitions (σ : store) (calls : list call) : store :=
  foldl run_call σ calls.

(** Source and target of the call are states of the store. *)
Definition call_on (σ : store) (c : call) : Prop :=
  is_Some (state_objs σ !! call_source c) ∧ is_Some (state_objs σ !! call_target c).

(** The door machine before its transition is created. *)
Definition door_fresh : store :=
  mk_store
    (<[ 0 := State.set_outgoing_transitions [] door_A ]>
       (<[ 1 := State.set_incoming_transitions [] door_B ]> ∅))
    ∅.

(** The door machine after [B.add_transitions([t])], where [t] is the
    transition that leaves [A]. *)
Definition door_added : store :=
  match add_transitions door_store 1 [0] with
  | Done σ => σ
  | _ => door_store
  end.

(** ** Links between states *)

(** [p] is the [parent_state] of [s]. *)
Definition parent_of (σ : store) : relation nat := λ s p,
  ∃ self, state_objs σ !! s = Some self ∧ State.parent_state self = Some p.

(** [s] is in the [states] list of [c]: the containment relation. *)
Definition contains (σ : store) : relation nat := λ c s,
  ∃ self, state_objs σ !! c = Some self ∧ s ∈ State.states self.

(** [s] is the target of the initial pseudo state of the composite [c]. *)
Definition initial_target (σ : store) : relation nat := λ c s,
  ∃ self i,
    state_objs σ !! c = Some self ∧
    State.subclass self = State.Composite (Some i) ∧
    InitialState.target i = s.

(** No state reaches itself by following the links one or more times. *)
Definition acyclic (R : relation nat) : Prop := ∀ x, ¬ tc R x x.

(** Parent links and initial targets refer to states of the store. *)
Definition references_live (σ : store) : Prop :=
  (∀ s p, parent_of σ s p → is_Some (state_objs σ !! p)) ∧
  (∀ c s, initial_target σ c s → is_Some (state_objs σ !! s)).

(** The initial pseudo state of a composite state targets one of the
    states the composite contains. *)
Definition initial_states_contained (σ : store) : Prop :=
  ∀ c s, initial_target σ c s → contains σ c s.

(** The recursion [f] ends with [r]: from some number of nested calls on,
    the outcome is [r], and [r] is not the budget running out. *)
Definition settles {A : Type} (f : nat → outcome A) (r : outcome A) : Prop :=
  r ≠ OutOfFuel ∧ ∃ n : nat, ∀ fuel : nat, (n ≤ fuel)%nat → f fuel = r.

(** A composite state (address 0) that contains no state and whose initial
    pseudo state targets the composite itself. *)
Definition loop_C : State.t :=
  State.mk (ASTElement.init "id-L" "stateMachine.state" None)
    (Some "L") None false [] [] [] (State.Composite (Some (InitialState.mk 0 None))).

Definition loop_store : store :=
  mk_store (<[ 0 := loop_C ]> ∅) ∅.

(** ** Well-formed trees *)

(** What serialization expects of the tree: the references held by states
    and transitions are to objects of the store, every composite state has
    its initial pseudo state, and containment is acyclic. *)
Definition well_formed (σ : store) : Prop :=
  (∀ s self, state_objs σ !! s = Some self →
     Forall (λ t, is_Some (transition_objs σ !! t)) (State.outgoing_transitions self) ∧
     Forall (λ c, is_Some (state_objs σ !! c)) (State.states self) ∧
     match State.subclass self with
     | State.Simple => True
     | State.Composite None => False
     | State.Composite (Some i) => is_Some (state_objs σ !! InitialState.target i)
     end) ∧
  (∀ t tr, transition_objs σ !! t = Some tr →
     is_Some (state_objs σ !! Transition.target tr)) ∧
  acyclic (contains σ).

(** The states of the machine and the target of its initial pseudo state,
    when set, are states of the store. *)
Definition machine_in (σ : store) (m : StateMachine.t) : Prop :=
  Forall (λ c, is_Some (state_objs σ !! c)) (StateMachine.states m) ∧
  match StateMachine.initial_state m with
  | None => True
  | Some i => is_Some (state_objs σ !! InitialState.target i)
  end.

(** ** Growth of the adjacency lists *)

(** [self'] is [self] but for its adjacency lists. *)
Definition same_node (self self' : State.t) : Prop :=
  State.ast self' = State.ast self ∧
  State.name self' = State.name self ∧
  State.parent_state self' = State.parent_state self ∧
  State.is_final self' = State.is_final self ∧
  State.states self' = State.states self ∧
  State.subclass self' = State.subclass self.

(** [self'] is [self] with [out] appended to its outgoing list and [inc]
    to its incoming list. *)
Definition appended (out inc : list addr) (self self' : State.t) : Prop :=
  same_node self self' ∧
  State.outgoing_transitions self' = (State.outgoing_transitions self ++ out)%list ∧
  State.incoming_transitions self' = (State.incoming_transitions self ++ inc)%list.

(** [σ'] has the states of [σ], at the same addresses, the state at [s]
    having got [out s] and [inc s] appended to its lists. *)
Definition states_appended (out inc : addr → list addr) (σ σ' : store) : Prop :=
  ∀ s, option_Forall2 (appended (out s) (inc s)) (state_objs σ !! s) (state_objs σ' !! s).

(** The transitions of [ts], in order and with repetitions, whose target
    is the state at [s]. *)
Definition targeting (σ : store) (s : addr) (ts : list addr) : list addr :=
  filter (λ t, Transition.target <$> transition_objs σ !! t = Some s) ts.

(** Two states, each the parent of the other. *)
Definition knot_store : store :=
  mk_store
    (<[ 0 := State.mk (ASTElement.init "id-K0" "stateMachine.state" None)
               None (Some 1) false [] [] [] State.Simple ]>
       (<[ 1 := State.mk (ASTElement.init "id-K1" "stateMachine.state" None)
                  None (Some 0) false [] [] [] State.Simple ]> ∅))
    ∅.

(** The transition [tr], at address [t], is wired: its two end states are
    in the store, and it occurs once in the outgoing list of its source,
    once in the incoming list of its target, and in no other list. *)
Definition wired (σ : store) (t : addr) (tr : Transition.t) : Prop :=
  is_Some (state_objs σ !! Transition.source tr) ∧
  is_Some (state_objs σ !! Transition.target tr) ∧
  ∀ s self, state_objs σ !! s = Some self →
    occurrences t (State.outgoing_transitions self) =
      (if decide (s = Transition.source tr) then 1 else 0) ∧
    occurrences t (State.incoming_transitions self) =
      (if decide (s = Transition.target tr) then 1 else 0).

(** The transition at [t] is in no adjacency list. *)
Definition unwired (σ : store) (t : addr) : Prop :=
  ∀ s self, state_objs σ !! s = Some self →
    occurrences t (State.outgoing_transitions self) = 0 ∧
    occurrences t (State.incoming_transitions self) = 0.

(** The door machine with a second transition, [A --z--> A] (address 1),
    built by the constructor and not yet added to any list. *)
Definition door_loose : store :=
  (Transition_init door_store "id-u" 0 0 (Some "z") None None).1.

(** ** Reading wire records *)

(** The entry [k] of a record. *)
Definition entry (k : string) (v : pyval) : option pyval :=
  match v with
  | PDict d => d !! k
  | _ => None
  end.

(** The id under which a record is filed. *)
Definition record_id (v : pyval) : option string :=
  match entry "id" v with
  | Some (PStr s) => Some s
  | _ => None
  end.

(** Composite states are the only states that contain states. *)
Definition simple_states_empty (σ : store) : Prop :=
  ∀ s self, state_objs σ !! s = Some self →
    State.subclass self = State.Simple → State.states self = [].

(** A tree half built: the composite [P] (address 0) has its initial pseudo
    state and contains the composite [Q] (address 1), which has none yet. *)
Definition half_P : State.t :=
  State.mk (ASTElement.init "id-P" "stateMachine.state" None)
    (Some "P") None false [] [] [1] (State.Composite (Some (InitialState.mk 1 None))).

Definition half_Q : State.t :=
  State.mk (ASTElement.init "id-Q" "stateMachine.state" None)
    (Some "Q") None false [] [] [] (State.Composite None).

Definition half_store : store :=
  mk_store (<[ 0 := half_P ]> (<[ 1 := half_Q ]> ∅)) ∅.

Definition half_machine : StateMachine.t :=
  StateMachine.mk (ASTElement.init "id-H" "stateMachine.stateMachine" None)
    "H" (Some (InitialState.mk 0 None)) [0].

(** ** Protocol envelopes *)

(** [server/LRP.py], class [Step]: [info] is a dict. *)
Module Step.
Record t : Type := mk { type : string; info : gmap string pyval }.
End Step.

(** [Step.to_dict]: the object's [__dict__]. *)
Definition Step_to_dict (self : Step.t) : gmap string pyval :=
  {[ "type" := PStr (Step.type self); "info" := PDict (Step.info self) ]}.

(** [TransitionStep.__init__]. *)
Definition TransitionStep_init (σ : store) (next_transition : addr) : outcome Step.t :=
  t ← get_transition σ next_transition;
  Done (Step.mk "stateMachine.transition"
          {[ "transition" := PStr (ASTElement.id (Transition.ast t)) ]}).

(** The model elements a response can hold: a state machine, a state, a
    transition or a runtime snapshot. *)
Inductive model_element : Type :=
  | AStateMachine (m : StateMachine.t)
  | AState (a : addr)
  | ATransition (a : addr)
  | ARuntimeState (r : RuntimeState.t).

(** [element.to_dict()], dispatched on the class of the element. *)
Definition ModelElement_to_dict (fuel : nat) (σ : store) (e : model_element)
    : outcome pyval :=
  match e with
  | AStateMachine m => StateMachine_to_dict fuel σ m
  | AState a => State_to_dict fuel σ a
  | ATransition a => t ← get_transition σ a; Transition_to_dict σ t
  | ARuntimeState r => RuntimeState_to_dict σ r
  end.

(** [ParseResponse.to_dict]. *)
Definition ParseResponse_to_dict (fuel : nat) (σ : store) (astRoot : model_element)
    : outcome pyval :=
  v ← ModelElement_to_dict fuel σ astRoot;
  Done (PDict {[ "astRoot" := v ]}).

(** [GetRuntimeStateResponse.to_dict]. *)
Definition GetRuntimeStateResponse_to_dict (fuel : nat) (σ : store)
    (runtimeStateRoot : model_element) : outcome pyval :=
  v ← ModelElement_to_dict fuel σ runtimeStateRoot;
  Done (PDict {[ "runtimeStateRoot" := v ]}).

(** The values of the envelopes that hold no model element: [bool], [str],
    [list] and [dict] with string keys. *)
Inductive envval : Type :=
  | EBool (b : bool)
  | EStr (s : string)
  | EList (l : list envval)
  | EDict (d : gmap string envval).

(** [server/LRP.py], enum [PrimitiveType] and the [value] of its members. *)
Inductive PrimitiveType : Type := BOOLEAN | STRING | NUMBER.

Definition PrimitiveType_value (p : PrimitiveType) : string :=
  match p with
  | BOOLEAN => "boolean"
  | STRING => "string"
  | NUMBER => "number"
  end.

(** [server/LRP.py], class [BreakpointParameter]. *)
Module BreakpointParameter.
Record t : Type := mk {
  name : string;
  primitiveType : option PrimitiveType;
  objectType : option string;
  isMultivalued : bool
}.
End BreakpointParameter.

(** [BreakpointParameter.to_dict]: [{**res, k: v}] is [res] with [k] set. *)
Definition BreakpointParameter_to_dict (self : BreakpointParameter.t)
    : gmap string envval :=
  let res : gmap string envval :=
    {[ "name" := EStr (BreakpointParameter.name self);
       "isMultivalued" := EBool (BreakpointParameter.isMultivalued self) ]} in
  let res :=
    match BreakpointParameter.primitiveType self with
    | Some p => <[ "primitiveType" := EStr (PrimitiveType_value p) ]> res
    | None => res
    end in
  let res :=
    match BreakpointParameter.objectType self with
    | Some o => <[ "objectType" := EStr o ]> res
    | None => res
    end in
  res.

(** [server/LRP.py], class [BreakpointType]. *)
Module BreakpointType.
Record t : Type := mk {
  id : string;
  parameters : list BreakpointParameter.t;
  name : string;
  description : string
}.
End BreakpointType.

(** [BreakpointType.to_dict]. *)
Definition BreakpointType_to_dict (self : BreakpointType.t) : gmap string envval :=
  {[ "id" := EStr (BreakpointType.id self);
     "name" := EStr (BreakpointType.name self);
     "description" := EStr (BreakpointType.description self);
     "parameters" :=
       EList ((λ param, EDict (BreakpointParameter_to_dict param))
                <$> BreakpointType.parameters self) ]}.

(** [GetBreakpointTypesResponse.__init__]: the field is the list given, or
    a new empty list when none is given. *)
Definition GetBreakpointTypesResponse_init (breakpointTypes : option (list BreakpointType.t))
    : list BreakpointType.t :=
  match breakpointTypes with
  | None => []
  | Some l => l
  end.

(** [GetBreakpointTypesResponse.to_dict], on the field. *)
Definition GetBreakpointTypesResponse_to_dict (breakpointTypes : list BreakpointType.t)
    : gmap string envval :=
  {[ "breakpointTypes" :=
       EList ((λ breakpoint, EDict (BreakpointType_to_dict breakpoint))
                <$> breakpointTypes) ]}.

(** [server/LRP.py], class [CheckBreakpointResponse]. *)
Module CheckBreakpointResponse.
Record t : Type := mk { isActivated : bool; message : option string }.
End CheckBreakpointResponse.

(** [CheckBreakpointResponse.to_dict]. *)
Definition CheckBreakpointResponse_to_dict (self : CheckBreakpointResponse.t)
    : gmap string envval :=
  let res : gmap string envval :=
    {[ "isActivated" := EBool (CheckBreakpointResponse.isActivated self) ]} in
  match CheckBreakpointResponse.message self with
  | Some m => <[ "message" := EStr m ]> res
  | None => res
  end.

(** A parameter that sets both kinds of type, and one that sets none. *)
Definition both_parameter : BreakpointParameter.t :=
  BreakpointParameter.mk "s" (Some STRING) (Some "stateMachine.state") false.

Definition bare_parameter : BreakpointParameter.t :=
  BreakpointParameter.mk "n" None None true.

(** ** What serialization reads *)

(** [self'] shows what [self] shows to serialization: everything but the
    incoming list and the parent. *)
Definition same_wire (self self' : State.t) : Prop :=
  State.ast self' = State.ast self ∧
  State.name self' = State.name self ∧
  State.is_final self' = State.is_final self ∧
  State.outgoing_transitions self' = State.outgoing_transitions self ∧
  State.states self' = State.states self ∧
  State.subclass self' = State.subclass self.

(** Two stores with the same transitions and, at the same addresses,
    states that differ at most by incoming lists and parents. *)
Definition wire_equivalent (σ σ' : store) : Prop :=
  transition_objs σ' = transition_objs σ ∧
  ∀ s, option_Forall2 same_wire (state_objs σ !! s) (state_objs σ' !! s).

(** What is read of a state through a reference to it: id and finality. *)
Definition same_targets (σ σ' : store) : Prop :=
  ∀ s, option_Forall2
         (λ self self', State.id self' = State.id self ∧
                        State.is_final self' = State.is_final self)
         (state_objs σ !! s) (state_objs σ' !! s).

(** The nested machine with parents unset and incoming lists emptied. *)
Definition nested_bare : store :=
  mk_store
    ((λ self, State.mk (State.ast self) (State.name self) None (State.is_final self)
                (State.outgoing_transitions self) [] (State.states self)
                (State.subclass self)) <$> state_objs nested_store)
    (transition_objs nested_store).

(** The record of the simple state [self] whose buckets hold the records
    [ts] and [fts]. *)
Definition simple_record (self : State.t) (ts fts : list pyval) : pyval :=
  PDict (ASTElement_construct_dict (State.ast self)
           {[ "name" := opt_str (State.name self) ]}
           {[ "transitions" := PList ts; "final transitions" := PList fts ]}
           ∅).

(** The state [A] of the door machine before any transition leaves it, and
    its record. *)
Definition door_fresh_A : State.t := State.set_outgoing_transitions [] door_A.

Definition door_fresh_A_record : pyval := simple_record door_fresh_A [] [].

(** * Properties *)

(** ** Reasoning about outcomes *)

Lemma bind_Done {A B : Type} (m : outcome A) (k : A → outcome B) (b : B) :
  (x ← m; k x) = Done b ↔ ∃ a, m = Done a ∧ k a = Done b.
Proof.
  split.
  - destruct m as [a| | |]; simpl; try discriminate. eauto.
  - intros (a & -> & Hk). exact Hk.
Qed.

Lemma Done_inj {A : Type} (a b : A) : Done a = Done b → a = b.
Proof. congruence. Qed.

(** Splits a hypothesis [(x ← m; k) = Done b] into its two calls. *)
Tactic Notation "bind_inv" hyp(H) "as" ident(a) ident(Ha) :=
  apply bind_Done in H as (a & Ha & H).

Tactic Notation "bind_inv" hyp(H) :=
  let a := fresh "r" in
  let Ha := fresh "E" in
  bind_inv H as a Ha.

Lemma get_state_Done σ a s : get_state σ a = Done s ↔ state_objs σ !! a = Some s.
Proof.
  unfold get_state, deref. destruct (state_objs σ !! a); split; congruence.
Qed.

Lemma get_transition_Done σ a t :
  get_transition σ a = Done t ↔ transition_objs σ !! a = Some t.
Proof.
  unfold get_transition, deref. destruct (transition_objs σ !! a); split; congruence.
Qed.

(** ** Records built by [construct_dict] *)

Lemma ModelElement_construct_dict_wire self a c r :
  wire_record None (PDict (ModelElement_construct_dict self a c r)).
Proof. eexists; split; [reflexivity|]. reflexivity. Qed.

Lemma ASTElement_construct_dict_wire self a c r :
  wire_record (ASTElement.location self) (PDict (ASTElement_construct_dict self a c r)).
Proof.
  eexists; split; [reflexivity|].
  unfold ASTElement_construct_dict.
  destruct (ASTElement.location self) as [l|]; [split|]; reflexivity.
Qed.

Lemma ASTElement_construct_dict_field self a c r :
  let v := PDict (ASTElement_construct_dict self a c r) in
  field "attributes" v = Some a ∧ field "children" v = Some c ∧ field "refs" v = Some r.
Proof.
  unfold field, ASTElement_construct_dict.
  destruct (ASTElement.location self); repeat split; reflexivity.
Qed.

Lemma State_construct_dict_Done σ self attributes children refs v :
  State_construct_dict σ self attributes children refs = Done v →
  ∃ a c, v = PDict (ASTElement_construct_dict (State.ast self) a c refs).
Proof.
  unfold State_construct_dict. intros H.
  do 5 bind_inv H. apply Done_inj in H as <-. eauto.
Qed.

Lemma State_to_dict_wire fuel σ a self v :
  state_objs σ !! a = Some self →
  State_to_dict fuel σ a = Done v →
  wire_record (ASTElement.location (State.ast self)) v.
Proof.
  intros Ha H. destruct fuel as [|fuel]; [discriminate|]. simpl in H.
  bind_inv H. apply get_state_Done in E. rewrite Ha in E. injection E as <-.
  destruct (State.subclass self) as [|[i|]].
  - apply State_construct_dict_Done in H as (? & ? & ->).
    apply ASTElement_construct_dict_wire.
  - simpl in H. do 2 bind_inv H.
    apply State_construct_dict_Done in H as (? & ? & ->).
    apply ASTElement_construct_dict_wire.
  - discriminate.
Qed.

(** ** Transitions *)

Lemma Transition_to_dict_eq σ t tgt :
  state_objs σ !! Transition.target t = Some tgt →
  Transition_to_dict σ t =
    Done (PDict (ASTElement_construct_dict (Transition.ast t)
                   {[ "input" := opt_str (Transition.input t);
                      "ouptut" := opt_str (Transition.output t) ]}
                   ∅
                   (if State.is_final tgt then ∅
                    else {[ "target" := PStr (State.id tgt) ]}))).
Proof.
  intros Ht. unfold Transition_to_dict, get_state. rewrite Ht. simpl.
  destruct (State.is_final tgt); reflexivity.
Qed.

(** C3.  A transition's record carries [refs['target']] exactly when its
    target is not final, and the entry is then the target's id; with a
    final target the record has no [refs['target']] key. *)
Theorem Transition_to_dict_target_ref σ t tgt :
  state_objs σ !! Transition.target t = Some tgt →
  ∃ v refs,
    Transition_to_dict σ t = Done v ∧
    field "refs" v = Some refs ∧
    refs !! "target" =
      (if State.is_final tgt then None else Some (PStr (State.id tgt))).
Proof.
  intros Ht. rewrite (Transition_to_dict_eq _ _ _ Ht).
  eexists _, _. split; [reflexivity|]. split.
  - apply ASTElement_construct_dict_field.
  - destruct (State.is_final tgt); reflexivity.
Qed.

Lemma Transition_to_dict_target_ref_witness :
  ∃ v refs,
    Transition_to_dict door_store door_transition = Done v ∧
    field "refs" v = Some refs ∧
    refs !! "target" = None.
Proof.
  exact (Transition_to_dict_target_ref door_store door_transition
           door_B eq_refl).
Defined.

(** C7.  The attributes of a transition's record are keyed ['input'] and
    ['ouptut']: the record of [A --x/y--> B] has no ['output'] attribute,
    its output is filed under the misspelt key. *)
Theorem Transition_to_dict_attributes_door :
  ∃ v attributes,
    Transition_to_dict door_store door_transition = Done v ∧
    field "attributes" v = Some attributes ∧
    dom attributes = {[ "input"; "ouptut" ]} ∧
    attributes !! "input" = Some (PStr "x") ∧
    attributes !! "ouptut" = Some (PStr "y") ∧
    attributes !! "output" = None.
Proof.
  eexists _, _. split; [reflexivity|]. repeat split; reflexivity.
Qed.

(** The same on every transition: two attributes, ['input'] and ['ouptut']. *)
Lemma Transition_attribute_keys σ t tgt :
  state_objs σ !! Transition.target t = Some tgt →
  ∃ v,
    Transition_to_dict σ t = Done v ∧
    field "attributes" v =
      Some {[ "input" := opt_str (Transition.input t);
              "ouptut" := opt_str (Transition.output t) ]}.
Proof.
  intros Ht. rewrite (Transition_to_dict_eq _ _ _ Ht).
  eexists. split; [reflexivity|]. apply ASTElement_construct_dict_field.
Qed.

(** ** Runtime snapshots *)

(** C5.  A snapshot whose current state is final carries the literal
    ['FINAL'] under [attributes['currentState']] and has empty refs; one
    whose current state is not final has no ['currentState'] attribute and
    [refs['currentState']] is the state's id.  In both cases the attributes
    hold ['inputs'], ['nextConsumedInputIndex'] and ['outputs']. *)
Theorem RuntimeState_to_dict_current_state σ r cs :
  state_objs σ !! RuntimeState.current_state r = Some cs →
  ∃ v attributes refs,
    RuntimeState_to_dict σ r = Done v ∧
    field "attributes" v = Some attributes ∧
    field "refs" v = Some refs ∧
    attributes !! "inputs" = Some (PList (PStr <$> RuntimeState.inputs r)) ∧
    attributes !! "nextConsumedInputIndex" =
      Some (opt_int (RuntimeState.next_consumed_input_index r)) ∧
    attributes !! "outputs" = Some (PList (PStr <$> RuntimeState.outputs r)) ∧
    (if State.is_final cs
     then attributes !! "currentState" = Some (PStr "FINAL") ∧ refs = ∅
     else attributes !! "currentState" = None ∧
          refs !! "currentState" = Some (PStr (State.id cs))).
Proof.
  intros Hcs. unfold RuntimeState_to_dict, get_state. rewrite Hcs. simpl.
  destruct (State.is_final cs);
    eexists _, _, _; (split; [reflexivity|]); repeat split; reflexivity.
Qed.

Lemma RuntimeState_to_dict_current_state_witness :
  ∃ v attributes refs,
    RuntimeState_to_dict door_store (RuntimeState_init "id-r" door_runtime) = Done v ∧
    field "attributes" v = Some attributes ∧
    field "refs" v = Some refs ∧
    attributes !! "inputs" = Some (PList [PStr "x"]) ∧
    attributes !! "nextConsumedInputIndex" = Some PNone ∧
    attributes !! "outputs" = Some (PList [PStr "y"]) ∧
    attributes !! "currentState" = Some (PStr "FINAL") ∧ refs = ∅.
Proof.
  exact (RuntimeState_to_dict_current_state door_store
           (RuntimeState_init "id-r" door_runtime) door_B eq_refl).
Defined.

(** C10.  Building a snapshot drops the runtime's index when no transition
    is pending and copies it otherwise, and the serialized
    ['nextConsumedInputIndex'] is that field; so there are runtimes whose
    index is not the one reported. *)
Theorem RuntimeState_init_next_consumed_input_index :
  (∀ new_id runtime,
     let snapshot := RuntimeState_init new_id runtime in
     RuntimeState.next_consumed_input_index snapshot =
       match Runtime.next_transition runtime with
       | None => None
       | Some _ => Runtime.next_consumed_input_index runtime
       end ∧
     RuntimeState_attributes snapshot !! "nextConsumedInputIndex" =
       Some (opt_int (RuntimeState.next_consumed_input_index snapshot))) ∧
  (∃ new_id runtime,
     Runtime.next_transition runtime = None ∧
     RuntimeState.next_consumed_input_index (RuntimeState_init new_id runtime) ≠
       Runtime.next_consumed_input_index runtime).
Proof.
  split.
  - intros new_id runtime. split; reflexivity.
  - exists "id-r", door_runtime. split; [reflexivity|]. discriminate.
Qed.

(** With a transition pending, the index of the runtime is reported. *)
Lemma RuntimeState_init_pending :
  RuntimeState_attributes (RuntimeState_init "id-r" door_runtime_pending)
    !! "nextConsumedInputIndex" = Some (PInt 0).
Proof. reflexivity. Qed.

(** ** Links without cycles *)

Lemma settles_unique {A : Type} (f : nat → outcome A) r1 r2 :
  settles f r1 → settles f r2 → r1 = r2.
Proof.
  intros [_ [n1 H1]] [_ [n2 H2]].
  rewrite <- (H1 (n1 + n2)), <- (H2 (n1 + n2)) by lia. reflexivity.
Qed.

Lemma tc_subrel (R1 R2 : relation nat) x y :
  (∀ a b, R1 a b → R2 a b) → tc R1 x y → tc R2 x y.
Proof.
  intros Hsub. induction 1 as [x y H|x y z H _ IH].
  - apply tc_once. by apply Hsub.
  - eapply tc_l; [by apply Hsub|done].
Qed.

(** Links that increase a measure have no cycle. *)
Lemma acyclic_ranked (R : relation nat) (rank : nat → nat) :
  (∀ x y, R x y → rank x < rank y) → acyclic R.
Proof.
  intros Hrank x Hx.
  assert (Hlt : ∀ a b, tc R a b → rank a < rank b).
  { induction 1 as [a b H|a b c H _ IH]; [by apply Hrank|].
    apply Hrank in H. lia. }
  apply Hlt in Hx. lia.
Qed.

(** In a store, which holds finitely many states, links without a cycle
    and between states of the store can only be followed finitely often. *)
Lemma acyclic_sn (σ : store) (R : relation nat) :
  acyclic R →
  (∀ x y, R x y → is_Some (state_objs σ !! y)) →
  ∀ x, sn R x.
Proof.
  intros Hacyc Hlive x. apply tc_finite_sn.
  - exact Hacyc.
  - exists (elements (dom (state_objs σ))). intros y Hy.
    apply elem_of_elements, elem_of_dom.
    induction Hy as [a b H|a b c _ _ IH]; [by eapply Hlive|done].
Qed.

(** ** The nested machine is well formed *)

(** Case analysis on a lookup [H] in one of the example stores. *)
Ltac store_cases H :=
  cbn in H;
  repeat (apply lookup_insert_Some in H as [[<- <-]|[_ H]]);
  try (by rewrite lookup_empty in H).

Lemma nested_references_live : references_live nested_store.
Proof.
  split.
  - intros s p (self & Hs & Hp). store_cases Hs; cbn in Hp; try discriminate;
      injection Hp as <-; by eexists.
  - intros c s (self & i & Hc & Hk & <-). store_cases Hc; cbn in Hk;
      try discriminate; injection Hk as <-; by eexists.
Qed.

Lemma nested_contains_acyclic : acyclic (contains nested_store).
Proof.
  apply (acyclic_ranked _ (λ x, x)). intros c s (self & Hc & Hin).
  store_cases Hc; cbn in Hin;
    repeat (apply elem_of_cons in Hin as [->|Hin]); try lia;
    by apply elem_of_nil in Hin.
Qed.

Lemma nested_parent_acyclic : acyclic (parent_of nested_store).
Proof.
  apply (acyclic_ranked _ (λ x, 3 - x)). intros s p (self & Hs & Hp).
  store_cases Hs; cbn in Hp; try discriminate; injection Hp as <-; lia.
Qed.

Lemma nested_initial_states_contained : initial_states_contained nested_store.
Proof.
  intros c s (self & i & Hc & Hk & <-). store_cases Hc; cbn in Hk;
    try discriminate; injection Hk as <-; eexists; (split; [reflexivity|]);
    cbn; set_solver.
Qed.

Lemma nested_well_formed : well_formed nested_store.
Proof.
  split; [|split].
  - intros s self Hs. store_cases Hs; cbn;
      (split; [|split]); repeat constructor; by eexists.
  - intros t tr Ht. store_cases Ht; by eexists.
  - apply nested_contains_acyclic.
Qed.

Lemma nested_machine_in : machine_in nested_store nested_machine.
Proof. split; [|by eexists]. repeat constructor. by eexists. Qed.

(** ** Serialization of a well-formed tree ends with a record *)

Lemma map_outcome_total {A B : Type} (f : A → outcome B) (l : list A) :
  Forall (λ x, ∃ y, f x = Done y) l → ∃ ys, map_outcome f l = Done ys.
Proof.
  induction 1 as [|x l [y Hy] _ [ys Hys]]; simpl; [by eexists|].
  rewrite Hy. simpl. rewrite Hys. by eexists.
Qed.

Lemma filter_outcome_total {A : Type} (p : A → outcome bool) (Q : A → Prop) (l : list A) :
  Forall (λ x, ∃ b, p x = Done b) l →
  Forall Q l →
  ∃ l', filter_outcome p l = Done l' ∧ Forall Q l'.
Proof.
  induction 1 as [|x l [b Hb] _ IH]; intros HQ; simpl; [by eexists|].
  apply Forall_cons in HQ as [Hx HQ]. destruct (IH HQ) as (l' & Hl' & HQ').
  rewrite Hb. simpl. rewrite Hl'. simpl. eexists. split; [reflexivity|].
  destruct b; [by constructor|done].
Qed.

Lemma map_outcome_settles {A B : Type} (f : nat → A → outcome B) (l : list A) :
  Forall (λ x, ∃ y, settles (λ fuel, f fuel x) (Done y)) l →
  ∃ ys, settles (λ fuel, map_outcome (f fuel) l) (Done ys).
Proof.
  induction 1 as [|x l (y & _ & n1 & Hy) _ (ys & _ & n2 & Hys)].
  - exists []. split; [done|]. by exists 0.
  - exists (y :: ys). split; [done|]. exists (n1 + n2). intros fuel Hfuel. simpl.
    rewrite Hy, Hys by lia. reflexivity.
Qed.

Lemma State_construct_dict_total σ self attributes children refs :
  well_formed σ →
  (∃ s, state_objs σ !! s = Some self) →
  ∃ v, State_construct_dict σ self attributes children refs = Done v.
Proof.
  intros (Hstates & Htrans & _) [s Hs].
  destruct (Hstates s self Hs) as (Hout & _ & _).
  set (live := λ t : Transition.t, is_Some (state_objs σ !! Transition.target t)).
  assert (Hobjs : ∃ outgoing,
            map_outcome (get_transition σ) (State.outgoing_transitions self) = Done outgoing
            ∧ Forall live outgoing).
  { induction Hout as [|a l [tr Ha] _ (outgoing & Hl & Hlive)]; simpl; [by eexists|].
    apply get_transition_Done in Ha as Ha'. rewrite Ha'. simpl. rewrite Hl. simpl.
    eexists. split; [reflexivity|]. constructor; [by eapply Htrans|done]. }
  destruct Hobjs as (outgoing & Hmap & Hlive).
  assert (Hfinal : Forall (λ t, ∃ b, target_is_final σ t = Done b) outgoing).
  { eapply Forall_impl; [exact Hlive|]. intros t [tgt Ht].
    unfold target_is_final, get_state. rewrite Ht. by eexists. }
  assert (Hnonfinal : Forall (λ t, ∃ b,
            (b ← target_is_final σ t; Done (negb b)) = Done b) outgoing).
  { eapply Forall_impl; [exact Hfinal|]. intros t [b ->]. by eexists. }
  assert (Hrec : ∀ l, Forall live l → ∃ vs, map_outcome (Transition_to_dict σ) l = Done vs).
  { intros l Hl. apply map_outcome_total. eapply Forall_impl; [exact Hl|].
    intros t [tgt Ht]. rewrite (Transition_to_dict_eq _ _ _ Ht). by eexists. }
  destruct (filter_outcome_total _ live _ Hnonfinal Hlive) as (l1 & Hl1 & Hlive1).
  destruct (filter_outcome_total _ live _ Hfinal Hlive) as (l2 & Hl2 & Hlive2).
  destruct (Hrec l1 Hlive1) as [ts Hts]. destruct (Hrec l2 Hlive2) as [fts Hfts].
  unfold State_construct_dict. rewrite Hmap. simpl. rewrite Hl1. simpl.
  rewrite Hl2. simpl. rewrite Hts. simpl. rewrite Hfts. simpl. by eexists.
Qed.

Lemma State_to_dict_total σ :
  well_formed σ →
  ∀ s, is_Some (state_objs σ !! s) →
  ∃ v, settles (λ fuel, State_to_dict fuel σ s) (Done v).
Proof.
  intros Hwf s.
  assert (Hlive : ∀ x y, contains σ x y → is_Some (state_objs σ !! y)).
  { intros x y (self & Hx & Hin). destruct Hwf as (Hstates & _ & _).
    destruct (Hstates x self Hx) as (_ & Hch & _).
    rewrite Forall_forall in Hch. by apply Hch. }
  induction (acyclic_sn σ (contains σ) (proj2 (proj2 Hwf)) Hlive s) as [s _ IH].
  intros [self Hs]. destruct (State.subclass self) as [|[i|]] eqn:Hk.
  - destruct (State_construct_dict_total σ self ∅ ∅ ∅ Hwf) as [v Hv]; [by exists s|].
    exists v. split; [done|]. exists 1. intros [|fuel] Hfuel; [lia|].
    simpl. unfold get_state. rewrite Hs. simpl. by rewrite Hk.
  - assert (Hsts : ∃ sts, settles (λ fuel, map_outcome (State_to_dict fuel σ)
                                      (State.states self)) (Done sts)).
    { apply map_outcome_settles, Forall_forall. intros c Hc.
      assert (Hsc : contains σ s c) by (by exists self).
      exact (IH c Hsc (Hlive s c Hsc)). }
    destruct Hsts as (sts & _ & n & Hn).
    destruct Hwf as (Hstates & Hrest). destruct (Hstates s self Hs) as (_ & _ & Hinit).
    rewrite Hk in Hinit. destruct Hinit as [tgt Htgt].
    destruct (State_construct_dict_total σ self ∅ {[ "states" := PList sts ]}
                {[ "initialState" := PStr (State.id tgt) ]} (conj Hstates Hrest))
      as [v Hv]; [by exists s|].
    exists v. split; [done|]. exists (S n). intros [|fuel] Hfuel; [lia|].
    simpl. unfold get_state. rewrite Hs. simpl. rewrite Hk. simpl.
    rewrite (Hn fuel) by lia. simpl. unfold get_state. rewrite Htgt. simpl. exact Hv.
  - destruct Hwf as (Hstates & _). destruct (Hstates s self Hs) as (_ & _ & Hinit).
    by rewrite Hk in Hinit.
Qed.

Lemma StateMachine_to_dict_total σ m :
  well_formed σ →
  machine_in σ m →
  ∃ v, settles (λ fuel, StateMachine_to_dict fuel σ m) (Done v).
Proof.
  intros Hwf [Hstates Hinit].
  destruct (map_outcome_settles (λ fuel, State_to_dict fuel σ) (StateMachine.states m))
    as (sts & _ & n & Hn).
  { eapply Forall_impl; [exact Hstates|]. intros c Hc. by apply State_to_dict_total. }
  unfold StateMachine_to_dict.
  destruct (StateMachine.initial_state m) as [i|].
  - destruct Hinit as [tgt Htgt]. eexists. split; [done|]. exists n.
    intros fuel Hfuel. rewrite (Hn fuel) by lia. simpl. unfold get_state.
    rewrite Htgt. reflexivity.
  - eexists. split; [done|]. exists n.
    intros fuel Hfuel. rewrite (Hn fuel) by lia. reflexivity.
Qed.

Lemma settles_Done {A : Type} (f : nat → outcome A) (v : A) :
  settles f (Done v) → ∃ fuel, f fuel = Done v.
Proof. intros [_ [n Hn]]. exists n. by apply Hn. Qed.

(** ** The two transition buckets *)

Lemma interleaved_length {A : Type} (l1 l2 l : list A) :
  interleaved l1 l2 l → length l = length l1 + length l2.
Proof. induction 1; simpl; lia. Qed.

Lemma interleaved_Permutation {A : Type} (l1 l2 l : list A) :
  interleaved l1 l2 l → l ≡ₚ l1 ++ l2.
Proof.
  induction 1 as [|x l1 l2 l _ IH|x l1 l2 l _ IH]; simpl.
  - reflexivity.
  - by rewrite IH.
  - rewrite IH. apply Permutation_middle.
Qed.

(** Sorting a list into two sides by a test gives back the two filters:
    an interleaving whose sides are told apart by [p] is determined. *)
Lemma interleaved_filter {A : Type} (p : A → bool) (l1 l2 l : list A) :
  interleaved l1 l2 l →
  Forall (λ x, p x = false) l1 →
  Forall (λ x, p x = true) l2 →
  l1 = List.filter (λ x, negb (p x)) l ∧ l2 = List.filter p l.
Proof.
  induction 1 as [|x l1 l2 l _ IH|x l1 l2 l _ IH]; intros H1 H2; simpl.
  - done.
  - apply Forall_cons in H1 as [Hx H1]. rewrite Hx. simpl.
    destruct (IH H1 H2) as [<- <-]. done.
  - apply Forall_cons in H2 as [Hx H2]. rewrite Hx. simpl.
    destruct (IH H1 H2) as [<- <-]. done.
Qed.

Lemma buckets_partition σ addrs : ∀ outgoing l1 l2 ts fts,
  map_outcome (get_transition σ) addrs = Done outgoing →
  filter_outcome (λ t, b ← target_is_final σ t; Done (negb b)) outgoing = Done l1 →
  filter_outcome (target_is_final σ) outgoing = Done l2 →
  map_outcome (Transition_to_dict σ) l1 = Done ts →
  map_outcome (Transition_to_dict σ) l2 = Done fts →
  ∃ nonfinal final,
    interleaved nonfinal final addrs ∧
    Forall (targets_final σ false) nonfinal ∧
    Forall (targets_final σ true) final ∧
    Forall2 (record_of σ) nonfinal ts ∧
    Forall2 (record_of σ) final fts.
Proof.
  induction addrs as [|a addrs IH]; intros outgoing l1 l2 ts fts Hmap Hf1 Hf2 Hts Hfts.
  - simpl in Hmap. apply Done_inj in Hmap as <-. simpl in Hf1, Hf2.
    apply Done_inj in Hf1 as <-. apply Done_inj in Hf2 as <-. simpl in Hts, Hfts.
    apply Done_inj in Hts as <-. apply Done_inj in Hfts as <-.
    exists [], []. repeat split; constructor.
  - simpl in Hmap. bind_inv Hmap as t Ht. bind_inv Hmap as outgoing' Hmap'.
    apply Done_inj in Hmap as <-. apply get_transition_Done in Ht.
    simpl in Hf1, Hf2.
    bind_inv Hf2 as b Hb. bind_inv Hf2 as l2' Hf2'. apply Done_inj in Hf2 as <-.
    bind_inv Hf1 as nb Hnb. rewrite Hb in Hnb. simpl in Hnb.
    apply Done_inj in Hnb as <-.
    bind_inv Hf1 as l1' Hf1'. apply Done_inj in Hf1 as <-.
    unfold target_is_final in Hb. bind_inv Hb as tgt Htgt.
    apply get_state_Done in Htgt. apply Done_inj in Hb.
    destruct b; simpl in Hts, Hfts.
    + bind_inv Hfts as v Hv. bind_inv Hfts as fts' Hfts'.
      apply Done_inj in Hfts as <-.
      destruct (IH _ _ _ _ _ Hmap' Hf1' Hf2' Hts Hfts')
        as (nonfinal & final & Hil & Hn & Hfi & Hrn & Hrf).
      exists nonfinal, (a :: final). repeat split; try done.
      * by constructor.
      * constructor; [|done]. by exists t, tgt.
      * constructor; [|done]. by exists t.
    + bind_inv Hts as v Hv. bind_inv Hts as ts' Hts'.
      apply Done_inj in Hts as <-.
      destruct (IH _ _ _ _ _ Hmap' Hf1' Hf2' Hts' Hfts)
        as (nonfinal & final & Hil & Hn & Hfi & Hrn & Hrf).
      exists (a :: nonfinal), final. repeat split; try done.
      * by constructor.
      * constructor; [|done]. by exists t, tgt.
      * constructor; [|done]. by exists t.
Qed.

Lemma State_construct_dict_buckets σ self attributes children refs v :
  children !! "transitions" = None →
  children !! "final transitions" = None →
  State_construct_dict σ self attributes children refs = Done v →
  ∃ ch ts fts nonfinal final,
    field "children" v = Some ch ∧
    ch !! "transitions" = Some (PList ts) ∧
    ch !! "final transitions" = Some (PList fts) ∧
    interleaved nonfinal final (State.outgoing_transitions self) ∧
    Forall (targets_final σ false) nonfinal ∧
    Forall (targets_final σ true) final ∧
    Forall2 (record_of σ) nonfinal ts ∧
    Forall2 (record_of σ) final fts.
Proof.
  intros Hc1 Hc2 H. unfold State_construct_dict in H.
  bind_inv H as outgoing Hmap. bind_inv H as l1 Hf1. bind_inv H as l2 Hf2.
  bind_inv H as ts Hts. bind_inv H as fts Hfts.
  apply Done_inj in H as <-.
  destruct (buckets_partition _ _ _ _ _ _ _ Hmap Hf1 Hf2 Hts Hfts)
    as (nonfinal & final & Hil & Hn & Hfi & Hrn & Hrf).
  eexists _, ts, fts, nonfinal, final.
  split; [apply ASTElement_construct_dict_field|].
  split; [by rewrite lookup_union_r|].
  split; [by rewrite lookup_union_r|].
  done.
Qed.

(** C2.  In the record of a state, [children['transitions']] and
    [children['final transitions']] are a stable partition of the state's
    outgoing transitions by the finality of their target: the outgoing list
    is an interleaving of the two buckets, so every occurrence of an
    outgoing transition is in exactly one of them and both keep the
    insertion order; the first holds the records of the transitions whose
    target is not final, the second those whose target is final.  In a
    well-formed tree the state does serialize. *)
Theorem State_to_dict_transition_buckets σ a self :
  state_objs σ !! a = Some self →
  (well_formed σ → ∃ v, settles (λ fuel, State_to_dict fuel σ a) (Done v)) ∧
  (∀ fuel v,
     State_to_dict fuel σ a = Done v →
     ∃ children ts fts nonfinal final,
       field "children" v = Some children ∧
       children !! "transitions" = Some (PList ts) ∧
       children !! "final transitions" = Some (PList fts) ∧
       interleaved nonfinal final (State.outgoing_transitions self) ∧
       Forall (targets_final σ false) nonfinal ∧
       Forall (targets_final σ true) final ∧
       Forall2 (record_of σ) nonfinal ts ∧
       Forall2 (record_of σ) final fts).
Proof.
  intros Ha. split.
  - intros Hwf. by apply State_to_dict_total.
  - intros fuel v H. destruct fuel as [|fuel]; [discriminate|]. simpl in H.
    bind_inv H. apply get_state_Done in E. rewrite Ha in E. injection E as <-.
    destruct (State.subclass self) as [|[i|]].
    + unfold SimpleState_to_dict in H.
      eapply State_construct_dict_buckets; [| |exact H]; reflexivity.
    + simpl in H. do 2 bind_inv H.
      eapply State_construct_dict_buckets; [| |exact H]; reflexivity.
    + discriminate.
Qed.

Lemma State_to_dict_transition_buckets_witness :
  (∃ v, settles (λ fuel, State_to_dict fuel nested_store 2) (Done v)) ∧
  ∃ v, State_to_dict 1 nested_store 2 = Done v ∧
  ∃ children ts fts nonfinal final,
    field "children" v = Some children ∧
    children !! "transitions" = Some (PList ts) ∧
    children !! "final transitions" = Some (PList fts) ∧
    interleaved nonfinal final [0; 1; 2] ∧
    Forall (targets_final nested_store false) nonfinal ∧
    Forall (targets_final nested_store true) final ∧
    Forall2 (record_of nested_store) nonfinal ts ∧
    Forall2 (record_of nested_store) final fts.
Proof.
  destruct (State_to_dict_transition_buckets nested_store 2 nested_S3 eq_refl)
    as [Htotal Hbuckets].
  split; [exact (Htotal nested_well_formed)|].
  eexists. split; [vm_compute; reflexivity|].
  refine (Hbuckets 1 _ _). vm_compute. reflexivity.
Defined.

(** On the nested machine: the loops of [S3] go to ['transitions'], in
    their order, and its transition to [F] to ['final transitions']. *)
Lemma nested_S3_buckets :
  ∃ v children r0 r1 r2,
    State_to_dict 1 nested_store 2 = Done v ∧
    field "children" v = Some children ∧
    children !! "transitions" = Some (PList [r0; r2]) ∧
    children !! "final transitions" = Some (PList [r1]) ∧
    Transition_to_dict nested_store nested_t0 = Done r0 ∧
    Transition_to_dict nested_store nested_t1 = Done r1 ∧
    Transition_to_dict nested_store nested_t2 = Done r2.
Proof.
  eexists _, _, _, _, _. repeat split; vm_compute; reflexivity.
Qed.

(** ** State machines and composite states *)

Lemma StateMachine_to_dict_eq fuel σ m sts :
  map_outcome (State_to_dict fuel σ) (StateMachine.states m) = Done sts →
  StateMachine_to_dict fuel σ m =
    (init ← match StateMachine.initial_state m return outcome string with
            | None => Done ""
            | Some i => tgt ← get_state σ (InitialState.target i); Done (State.id tgt)
            end;
     Done (PDict (ASTElement_construct_dict (StateMachine.ast m)
                    {[ "name" := PStr (StateMachine.name m) ]}
                    {[ "states" := PList sts ]}
                    {[ "initialState" := PStr init ]}))).
Proof. intros H. unfold StateMachine_to_dict. rewrite H. reflexivity. Qed.

Lemma StateMachine_to_dict_wire fuel σ m v :
  StateMachine_to_dict fuel σ m = Done v →
  wire_record (ASTElement.location (StateMachine.ast m)) v.
Proof.
  unfold StateMachine_to_dict. intros H. do 2 bind_inv H.
  apply Done_inj in H as <-. apply ASTElement_construct_dict_wire.
Qed.

(** C4, as the code has it.  A state machine whose initial pseudo state is
    unset does not fail on that account: whenever its states serialize, as
    they do in a well-formed tree, its record has [refs['initialState']]
    equal to the empty string, and equal to the id of the pseudo state's
    target when it is set; when one of its states fails, the machine fails
    with the same error.  A composite state whose initial pseudo state is
    unset raises [ValueError('No initial state.')]. *)
Theorem initial_state_unset_asymmetry :
  (∀ fuel σ m sts,
     StateMachine.initial_state m = None →
     map_outcome (State_to_dict fuel σ) (StateMachine.states m) = Done sts →
     ∃ v, StateMachine_to_dict fuel σ m = Done v ∧
          field "refs" v = Some {[ "initialState" := PStr "" ]}) ∧
  (∀ σ m,
     StateMachine.initial_state m = None →
     well_formed σ →
     machine_in σ m →
     ∃ v, settles (λ fuel, StateMachine_to_dict fuel σ m) (Done v) ∧
          field "refs" v = Some {[ "initialState" := PStr "" ]}) ∧
  (∀ fuel σ m i tgt sts,
     StateMachine.initial_state m = Some i →
     state_objs σ !! InitialState.target i = Some tgt →
     map_outcome (State_to_dict fuel σ) (StateMachine.states m) = Done sts →
     ∃ v, StateMachine_to_dict fuel σ m = Done v ∧
          field "refs" v = Some {[ "initialState" := PStr (State.id tgt) ]}) ∧
  (∀ fuel σ m e,
     map_outcome (State_to_dict fuel σ) (StateMachine.states m) = Raised e →
     StateMachine_to_dict fuel σ m = Raised e) ∧
  (∀ fuel σ a self,
     state_objs σ !! a = Some self →
     State.subclass self = State.Composite None →
     State_to_dict (S fuel) σ a = Raised (mk_exn "ValueError" "No initial state.")).
Proof.
  assert (Hnone : ∀ fuel σ m sts,
     StateMachine.initial_state m = None →
     map_outcome (State_to_dict fuel σ) (StateMachine.states m) = Done sts →
     ∃ v, StateMachine_to_dict fuel σ m = Done v ∧
          field "refs" v = Some {[ "initialState" := PStr "" ]}).
  { intros fuel σ m sts Hi Hs. rewrite (StateMachine_to_dict_eq _ _ _ _ Hs), Hi.
    eexists. split; [reflexivity|]. apply ASTElement_construct_dict_field. }
  split; [exact Hnone|]. repeat split.
  - intros σ m Hi Hwf Hin.
    destruct (StateMachine_to_dict_total σ m Hwf Hin) as [v Hv].
    exists v. split; [done|].
    destruct (settles_Done _ _ Hv) as [fuel Hfuel].
    unfold StateMachine_to_dict in Hfuel. bind_inv Hfuel as sts Hsts.
    destruct (Hnone fuel σ m sts Hi Hsts) as (v' & Hv' & Hrefs).
    unfold StateMachine_to_dict in Hv'. rewrite Hsts in Hv'. simpl in Hv'.
    rewrite Hv' in Hfuel. by apply Done_inj in Hfuel as <-.
  - intros fuel σ m i tgt sts Hi Ht Hs.
    rewrite (StateMachine_to_dict_eq _ _ _ _ Hs), Hi.
    unfold get_state. rewrite Ht.
    eexists. split; [reflexivity|]. apply ASTElement_construct_dict_field.
  - intros fuel σ m e Hs. unfold StateMachine_to_dict. rewrite Hs. reflexivity.
  - intros fuel σ a self Ha Hk. simpl. unfold get_state. rewrite Ha. simpl.
    rewrite Hk. reflexivity.
Qed.

Lemma initial_state_unset_asymmetry_witness :
  (∃ v, StateMachine_to_dict 1 door_store blank_machine = Done v ∧
        field "refs" v = Some {[ "initialState" := PStr "" ]}) ∧
  (∃ v, settles (λ fuel, StateMachine_to_dict fuel nested_store nested_machine_unset)
          (Done v) ∧
        field "refs" v = Some {[ "initialState" := PStr "" ]}) ∧
  (∃ v, StateMachine_to_dict 1 door_store door_machine = Done v ∧
        field "refs" v = Some {[ "initialState" := PStr "id-A" ]}) ∧
  StateMachine_to_dict 1 orphan_store orphan_machine =
    Raised (mk_exn "ValueError" "No initial state.") ∧
  State_to_dict 1 orphan_store 0 = Raised (mk_exn "ValueError" "No initial state.").
Proof.
  destruct initial_state_unset_asymmetry as (Hnone & Hwf & Hsome & Hfail & Hcomp).
  split; [|split; [|split; [|split]]].
  - exact (Hnone 1 door_store blank_machine [] eq_refl eq_refl).
  - refine (Hwf nested_store nested_machine_unset eq_refl nested_well_formed _).
    split; [|done]. repeat constructor. by eexists.
  - refine (Hsome 1 door_store door_machine (InitialState.mk 0 None) door_A _
              eq_refl eq_refl _).
    reflexivity.
  - exact (Hfail 1 orphan_store orphan_machine _ eq_refl).
  - exact (Hcomp 0 orphan_store 0 orphan_C eq_refl eq_refl).
Defined.

(** C4 as stated fails twice on the machine under construction: the
    machine's initial pseudo state is unset and its serialization does not
    succeed, whatever the recursion budget; and the error of the composite
    state is a [ValueError], not a [MalformedTreeError]. *)
Lemma initial_state_unset_counterexample :
  StateMachine.initial_state orphan_machine = None ∧
  (∀ fuel v, StateMachine_to_dict fuel orphan_store orphan_machine ≠ Done v) ∧
  StateMachine_to_dict 1 orphan_store orphan_machine = Raised No_initial_state ∧
  State_to_dict 1 orphan_store 0 = Raised No_initial_state ∧
  exn_class No_initial_state = "ValueError" ∧
  exn_class No_initial_state ≠ "MalformedTreeError".
Proof.
  split; [reflexivity|]. split; [|repeat split; discriminate].
  intros [|fuel] v; discriminate.
Qed.

(** C6.  Every record has exactly the five keys ['id'], ['type'],
    ['attributes'], ['children'] and ['refs'], and a sixth, ['location'],
    holding the four integers, exactly when the element is an AST element
    with a location.  Transitions and runtime snapshots always serialize;
    states and state machines serialize in a well-formed tree, and whatever
    record they produce has that shape. *)
Theorem to_dict_top_level_keys :
  (∀ σ t tgt,
     state_objs σ !! Transition.target t = Some tgt →
     ∃ v, Transition_to_dict σ t = Done v ∧
          wire_record (ASTElement.location (Transition.ast t)) v) ∧
  (∀ σ a self,
     well_formed σ →
     state_objs σ !! a = Some self →
     ∃ v, settles (λ fuel, State_to_dict fuel σ a) (Done v) ∧
          wire_record (ASTElement.location (State.ast self)) v) ∧
  (∀ fuel σ a self v,
     state_objs σ !! a = Some self →
     State_to_dict fuel σ a = Done v →
     wire_record (ASTElement.location (State.ast self)) v) ∧
  (∀ σ m,
     well_formed σ →
     machine_in σ m →
     ∃ v, settles (λ fuel, StateMachine_to_dict fuel σ m) (Done v) ∧
          wire_record (ASTElement.location (StateMachine.ast m)) v) ∧
  (∀ fuel σ m v,
     StateMachine_to_dict fuel σ m = Done v →
     wire_record (ASTElement.location (StateMachine.ast m)) v) ∧
  (∀ σ r cs,
     state_objs σ !! RuntimeState.current_state r = Some cs →
     ∃ v, RuntimeState_to_dict σ r = Done v ∧ wire_record None v).
Proof.
  split; [|split; [|split; [|split; [|split]]]].
  - intros σ t tgt Ht. rewrite (Transition_to_dict_eq _ _ _ Ht).
    eexists. split; [reflexivity|]. apply ASTElement_construct_dict_wire.
  - intros σ a self Hwf Ha.
    destruct (State_to_dict_total σ Hwf a) as [v Hv]; [by eexists|].
    exists v. split; [done|]. destruct (settles_Done _ _ Hv) as [fuel Hfuel].
    by eapply State_to_dict_wire.
  - apply State_to_dict_wire.
  - intros σ m Hwf Hin.
    destruct (StateMachine_to_dict_total σ m Hwf Hin) as [v Hv].
    exists v. split; [done|]. destruct (settles_Done _ _ Hv) as [fuel Hfuel].
    by eapply StateMachine_to_dict_wire.
  - apply StateMachine_to_dict_wire.
  - intros σ r cs Hcs. unfold RuntimeState_to_dict, get_state. rewrite Hcs. simpl.
    destruct (State.is_final cs); eexists; (split; [reflexivity|]);
      apply ModelElement_construct_dict_wire.
Qed.

Lemma to_dict_top_level_keys_witness :
  (∃ v, Transition_to_dict nested_store nested_t1 = Done v ∧ wire_record None v) ∧
  (∃ v, settles (λ fuel, State_to_dict fuel nested_store 0) (Done v) ∧
        wire_record (Some (Location.init 1 9 1 2)) v) ∧
  (∃ v, State_to_dict 1 nested_store 2 = Done v ∧ wire_record None v) ∧
  (∃ v, settles (λ fuel, StateMachine_to_dict fuel nested_store nested_machine) (Done v) ∧
        wire_record None v) ∧
  (∃ v, StateMachine_to_dict 3 nested_store nested_machine = Done v ∧
        wire_record None v) ∧
  (∃ v, RuntimeState_to_dict nested_store
          (RuntimeState_init "id-r" (Runtime.mk [] None None 2 [])) = Done v ∧
        wire_record None v).
Proof.
  destruct to_dict_top_level_keys as (Ht & Hs & Hs' & Hm & Hm' & Hr).
  split; [|split; [|split; [|split; [|split]]]].
  - exact (Ht nested_store nested_t1 nested_F eq_refl).
  - exact (Hs nested_store 0 nested_S1 nested_well_formed eq_refl).
  - eexists. split; [vm_compute; reflexivity|].
    refine (Hs' 1 nested_store 2 nested_S3 _ eq_refl _). vm_compute. reflexivity.
  - exact (Hm nested_store nested_machine nested_well_formed nested_machine_in).
  - eexists. split; [vm_compute; reflexivity|].
    refine (Hm' 3 nested_store nested_machine _ _). vm_compute. reflexivity.
  - exact (Hr nested_store (RuntimeState_init "id-r" (Runtime.mk [] None None 2 []))
             nested_S3 eq_refl).
Defined.

(** ** Nested initial states *)

Lemma get_nested_initial_state_simple σ s self fuel :
  state_objs σ !! s = Some self →
  State.subclass self = State.Simple →
  get_nested_initial_state (S fuel) σ s = Done s.
Proof.
  intros Hs Hk. simpl. unfold get_state. rewrite Hs. simpl. rewrite Hk. reflexivity.
Qed.

Lemma get_nested_initial_state_chain σ n c t :
  initial_chain σ n c t →
  ∀ fuel, n < fuel → get_nested_initial_state fuel σ c = Done t.
Proof.
  induction 1 as [s self Hs Hk|n c self i t Hc Hk _ IH]; intros fuel Hfuel.
  - destruct fuel as [|fuel]; [lia|]. by eapply get_nested_initial_state_simple.
  - destruct fuel as [|fuel]; [lia|]. simpl. unfold get_state. rewrite Hc. simpl.
    rewrite Hk. simpl. unfold InitialState_get_nested_initial_state.
    apply IH. lia.
Qed.

Lemma initial_chain_ends_simple σ n c t :
  initial_chain σ n c t →
  ∃ self, state_objs σ !! t = Some self ∧ State.subclass self = State.Simple.
Proof. induction 1; eauto. Qed.

(** C1.  On a simple state the nested initial state is the state itself.
    On a composite state whose initial pseudo states lead, through any
    number [n] of composite states, to a simple state [t], it is [t]; the
    same holds when asking the initial pseudo state.  [n + 1] nested calls
    are enough. *)
Theorem get_nested_initial_state_resolves :
  (∀ σ s self fuel,
     state_objs σ !! s = Some self →
     State.subclass self = State.Simple →
     get_nested_initial_state (S fuel) σ s = Done s) ∧
  (∀ σ n c t fuel,
     initial_chain σ n c t →
     n < fuel →
     get_nested_initial_state fuel σ c = Done t ∧
     ∃ self, state_objs σ !! t = Some self ∧ State.subclass self = State.Simple) ∧
  (∀ σ n i t fuel,
     initial_chain σ n (InitialState.target i) t →
     n < fuel →
     InitialState_get_nested_initial_state (get_nested_initial_state fuel σ) i = Done t).
Proof.
  split; [|split].
  - apply get_nested_initial_state_simple.
  - intros σ n c t fuel Hc Hfuel. split.
    + by eapply get_nested_initial_state_chain.
    + by eapply initial_chain_ends_simple.
  - intros σ n i t fuel Hc Hfuel. unfold InitialState_get_nested_initial_state.
    by eapply get_nested_initial_state_chain.
Qed.

Lemma nested_chain : initial_chain nested_store 2 0 2.
Proof.
  eapply (chain_composite _ _ _ nested_S1); [reflexivity..|].
  eapply (chain_composite _ _ _ nested_S2); [reflexivity..|].
  eapply (chain_simple _ _ nested_S3); reflexivity.
Qed.

Lemma get_nested_initial_state_resolves_witness :
  get_nested_initial_state 1 nested_store 2 = Done 2 ∧
  get_nested_initial_state 3 nested_store 0 = Done 2 ∧
  InitialState_get_nested_initial_state (get_nested_initial_state 3 nested_store)
    (InitialState.mk 0 None) = Done 2.
Proof.
  destruct get_nested_initial_state_resolves as (Hs & Hc & Hi).
  split; [|split].
  - exact (Hs nested_store 2 nested_S3 0 eq_refl eq_refl).
  - refine (proj1 (Hc nested_store 2 0 2 3 nested_chain _)). lia.
  - refine (Hi nested_store 2 (InitialState.mk 0 None) 2 3 nested_chain _). lia.
Defined.

(** ** Adjacency lists *)

Lemma occurrences_app t l1 l2 :
  occurrences t (l1 ++ l2)%list = occurrences t l1 + occurrences t l2.
Proof. apply count_occ_app. Qed.

Lemma occurrences_singleton t x :
  occurrences t [x] = if decide (x = t) then 1 else 0.
Proof.
  unfold occurrences. simpl. destruct (Nat.eq_dec x t); case_decide; done.
Qed.

Lemma occurrences_append_if t t0 l (P : Prop) `{!Decision P} :
  occurrences t (l ++ (if decide P then [t0] else []))%list =
  occurrences t l + (if decide P then if decide (t0 = t) then 1 else 0 else 0).
Proof.
  rewrite occurrences_app. case_decide; [by rewrite occurrences_singleton|done].
Qed.

(** What [create_transition] does to the store: one new transition, at a
    fresh address, and two appended references. *)
Lemma create_transition_transitions σ new_id a b input output location :
  let t0 := fresh (dom (transition_objs σ)) in
  transition_objs σ !! t0 = None ∧
  transition_objs (create_transition σ new_id a b input output location) =
    <[ t0 := Transition.mk (ASTElement.init new_id "stateMachine.transition" location)
               a b input output ]> (transition_objs σ).
Proof.
  split; [|reflexivity]. apply not_elem_of_dom, is_fresh.
Qed.

Lemma create_transition_states σ new_id a b input output location s self' :
  let t0 := fresh (dom (transition_objs σ)) in
  state_objs (create_transition σ new_id a b input output location) !! s = Some self' →
  ∃ self,
    state_objs σ !! s = Some self ∧
    State.outgoing_transitions self' =
      (State.outgoing_transitions self ++ (if decide (s = a) then [t0] else []))%list ∧
    State.incoming_transitions self' =
      (State.incoming_transitions self ++ (if decide (s = b) then [t0] else []))%list.
Proof.
  intros t0. unfold create_transition, Transition_init, append_incoming,
    append_outgoing, update_state. simpl. rewrite !lookup_alter.
  destruct (state_objs σ !! s) as [self|] eqn:Hs.
  - intros H. exists self. split; [done|].
    destruct (decide (b = s)) as [->|Hb], (decide (a = s)) as [->|Ha];
      rewrite ?lookup_alter_eq, ?Hs in H; rewrite ?Hs in H; simpl in H;
      injection H as <-; simpl;
      repeat case_decide; try congruence; by rewrite ?app_nil_r.
  - destruct (decide (b = s)) as [->|Hb], (decide (a = s)) as [->|Ha];
      rewrite ?lookup_alter_eq, ?Hs; rewrite ?Hs; discriminate.
Qed.

Lemma create_transition_dom σ new_id a b input output location :
  dom (state_objs (create_transition σ new_id a b input output location)) =
  dom (state_objs σ).
Proof.
  unfold create_transition, Transition_init, append_incoming, append_outgoing,
    update_state. simpl. by rewrite !dom_alter_L.
Qed.

Lemma create_transition_preserves σ new_id a b input output location :
  is_Some (state_objs σ !! a) →
  is_Some (state_objs σ !! b) →
  adjacency_ok σ ∧ no_stray_transition σ →
  adjacency_ok (create_transition σ new_id a b input output location) ∧
  no_stray_transition (create_transition σ new_id a b input output location).
Proof.
  intros Ha Hb [Hok Hstray].
  destruct (create_transition_transitions σ new_id a b input output location)
    as [Hfresh Htr].
  set (t0 := fresh (dom (transition_objs σ))) in *.
  assert (Hdom : ∀ x, is_Some (state_objs σ !! x) →
            is_Some (state_objs (create_transition σ new_id a b input output location) !! x)).
  { intros x. rewrite <- !elem_of_dom, create_transition_dom. done. }
  split.
  - intros t tr Ht. rewrite Htr in Ht.
    destruct (decide (t = t0)) as [->|Hne].
    + rewrite lookup_insert_eq in Ht. injection Ht as <-. simpl.
      split; [by apply Hdom|]. split; [by apply Hdom|].
      intros s self' Hs.
      apply (create_transition_states σ new_id a b input output location) in Hs
        as (self & Hs & -> & ->).
      destruct (Hstray t0 Hfresh s self Hs) as [Ho Hi].
      rewrite !occurrences_append_if, Ho, Hi.
      split; repeat case_decide; done.
    + rewrite lookup_insert_ne in Ht by done.
      destruct (Hok t tr Ht) as (Hsrc & Htgt & Hocc).
      split; [by apply Hdom|]. split; [by apply Hdom|].
      intros s self' Hs.
      apply (create_transition_states σ new_id a b input output location) in Hs
        as (self & Hs & -> & ->).
      destruct (Hocc s self Hs) as [Ho Hi].
      rewrite !occurrences_append_if, Ho, Hi.
      split; repeat case_decide; subst; done || lia.
  - intros t Ht s self' Hs. rewrite Htr in Ht.
    apply lookup_insert_None in Ht as [Ht Hne].
    apply (create_transition_states σ new_id a b input output location) in Hs
      as (self & Hs & -> & ->).
    destruct (Hstray t Ht s self Hs) as [Ho Hi].
    rewrite !occurrences_append_if, Ho, Hi.
    split; repeat case_decide; subst; done || lia.
Qed.

Lemma fresh_tree_adjacency σ :
  fresh_tree σ → adjacency_ok σ ∧ no_stray_transition σ.
Proof.
  intros [Hnone Hempty]. split.
  - intros t tr Ht. rewrite Hnone in Ht. done.
  - intros t _ s self Hs. destruct (Hempty s self Hs) as [-> ->]. done.
Qed.

(** The constructors of states keep the tree fresh. *)
Lemma SimpleState_init_fresh_tree σ new_id name parent_state is_final location :
  fresh_tree σ →
  fresh_tree (SimpleState_init σ new_id name parent_state is_final location).1.
Proof.
  intros [Hnone Hempty]. split; [done|]. intros s self Hs. simpl in Hs.
  apply lookup_insert_Some in Hs as [[_ <-]|[_ Hs]]; [done|]. by eapply Hempty.
Qed.

Lemma CompositeState_init_fresh_tree σ new_id name location :
  fresh_tree σ →
  fresh_tree (CompositeState_init σ new_id name location).1.
Proof.
  intros [Hnone Hempty]. split; [done|]. intros s self Hs. simpl in Hs.
  apply lookup_insert_Some in Hs as [[_ <-]|[_ Hs]]; [done|]. by eapply Hempty.
Qed.

Lemma empty_store_fresh_tree : fresh_tree empty_store.
Proof. split; [done|]. intros s self Hs. cbn in Hs. by rewrite lookup_empty in Hs. Qed.

Lemma create_transitions_preserves calls : ∀ σ,
  Forall (call_on σ) calls →
  adjacency_ok σ ∧ no_stray_transition σ →
  adjacency_ok (create_transitions σ calls) ∧
  no_stray_transition (create_transitions σ calls).
Proof.
  induction calls as [|c calls IH]; intros σ Hcalls Hinv; [done|].
  apply Forall_cons in Hcalls as [[Hsrc Htgt] Hcalls]. simpl.
  apply IH.
  - eapply Forall_impl; [exact Hcalls|]. intros c' [Hs Ht]. unfold call_on, run_call.
    rewrite <- !elem_of_dom, create_transition_dom, !elem_of_dom. done.
  - by apply create_transition_preserves.
Qed.

Lemma create_transitions_size calls : ∀ σ,
  size (transition_objs (create_transitions σ calls)) =
  size (transition_objs σ) + length calls.
Proof.
  induction calls as [|c calls IH]; intros σ; simpl; [lia|].
  rewrite IH. unfold run_call.
  destruct (create_transition_transitions σ (call_new_id c) (call_source c)
              (call_target c) (call_input c) (call_output c) (call_location c))
    as [Hfresh ->].
  rewrite map_size_insert_None by done. lia.
Qed.

(** C8, as the code has it.  Starting from a tree whose adjacency lists
    are empty, after any sequence of [create_transition] calls between
    states of the tree there is one transition per call, and every
    transition occurs exactly once in the outgoing list of its source and
    in no other outgoing list, and exactly once in the incoming list of its
    target and in no other incoming list. *)
Theorem create_transition_adjacency σ calls :
  fresh_tree σ →
  Forall (call_on σ) calls →
  size (transition_objs (create_transitions σ calls)) = length calls ∧
  adjacency_ok (create_transitions σ calls).
Proof.
  intros Hfresh Hcalls. split.
  - rewrite create_transitions_size. destruct Hfresh as [-> _].
    by rewrite map_size_empty.
  - by apply create_transitions_preserves, fresh_tree_adjacency.
Qed.

Lemma door_fresh_tree : fresh_tree door_fresh.
Proof.
  split; [reflexivity|]. intros s self Hs. unfold door_fresh in Hs. simpl in Hs.
  apply lookup_insert_Some in Hs as [[_ <-]|[_ Hs]]; [done|].
  apply lookup_insert_Some in Hs as [[_ <-]|[_ Hs]]; [done|].
  by rewrite lookup_empty in Hs.
Qed.

Lemma door_calls_on :
  Forall (call_on door_fresh)
    [mk_call "id-t" 0 1 (Some "x") (Some "y") None; mk_call "id-u" 1 1 None None None].
Proof. repeat constructor; by eexists. Qed.

Lemma create_transition_adjacency_witness :
  let σ := create_transitions door_fresh
             [mk_call "id-t" 0 1 (Some "x") (Some "y") None;
              mk_call "id-u" 1 1 None None None] in
  size (transition_objs σ) = 2 ∧ adjacency_ok σ.
Proof.
  exact (create_transition_adjacency door_fresh _ door_fresh_tree door_calls_on).
Defined.

(** The door machine is the fresh tree after one [create_transition]. *)
Lemma door_store_created :
  create_transitions door_fresh [mk_call "id-t" 0 1 (Some "x") (Some "y") None]
  = door_store.
Proof. vm_compute. reflexivity. Qed.

(** [create_transition] is not the only operation that appends to the
    adjacency lists: on the door machine, itself the fresh tree after one
    [create_transition], [B.add_transitions([t])] with the transition [t]
    that leaves [A] appends [t] to the outgoing list of [B] and again to
    the incoming list of [B].  Afterwards [t] is in two outgoing lists and
    twice in an incoming list. *)
Lemma add_transitions_counterexample :
  create_transitions door_fresh [mk_call "id-t" 0 1 (Some "x") (Some "y") None]
    = door_store ∧
  add_transitions door_store 1 [0] = Done door_added ∧
  State.outgoing_transitions <$> state_objs door_store !! 1 = Some [] ∧
  State.outgoing_transitions <$> state_objs door_added !! 1 = Some [0] ∧
  State.outgoing_transitions <$> state_objs door_added !! 0 = Some [0] ∧
  State.incoming_transitions <$> state_objs door_added !! 1 = Some [0; 0] ∧
  ¬ adjacency_ok door_added.
Proof.
  split; [apply door_store_created|].
  split; [vm_compute; reflexivity|].
  do 4 (split; [vm_compute; reflexivity|]).
  intros Hok.
  destruct (Hok 0 door_transition) as (_ & _ & Hocc); [vm_compute; reflexivity|].
  destruct (Hocc 1 (State.set_incoming_transitions [0; 0]
                      (State.set_outgoing_transitions [0] door_B))) as [Ho _];
    [vm_compute; reflexivity|].
  vm_compute in Ho. discriminate.
Qed.

(** ** Termination of the two recursions *)

Lemma get_depth_settles σ :
  references_live σ →
  acyclic (parent_of σ) →
  ∀ s self, state_objs σ !! s = Some self →
  ∃ d, settles (λ fuel, get_depth fuel σ s) (Done d) ∧
       match State.parent_state self with
       | None => d = 0
       | Some p => ∃ dp, settles (λ fuel, get_depth fuel σ p) (Done dp) ∧ d = dp + 1
       end.
Proof.
  intros [Hlive _] Hacyc s.
  induction (acyclic_sn σ (parent_of σ) Hacyc Hlive s) as [s _ IH].
  intros self Hs. destruct (State.parent_state self) as [p|] eqn:Hp.
  - assert (Hsp : parent_of σ s p) by (by exists self).
    destruct (Hlive s p Hsp) as [parent Hparent].
    destruct (IH p Hsp parent Hparent) as (dp & Hdp & _).
    exists (dp + 1). split; [|by exists dp].
    split; [done|]. destruct Hdp as [_ [n Hn]]. exists (S n).
    intros [|fuel] Hfuel; [lia|]. simpl. unfold get_state. rewrite Hs. simpl.
    rewrite Hp, (Hn fuel) by lia. reflexivity.
  - exists 0. split; [|done]. split; [done|]. exists 1.
    intros [|fuel] Hfuel; [lia|]. simpl. unfold get_state. rewrite Hs. simpl.
    by rewrite Hp.
Qed.

Lemma get_nested_initial_state_settles σ :
  references_live σ →
  acyclic (initial_target σ) →
  ∀ s, is_Some (state_objs σ !! s) →
  ∃ r, settles (λ fuel, get_nested_initial_state fuel σ s) r ∧
       (r = Raised No_initial_state ∨ ∃ t, r = Done t).
Proof.
  intros [_ Hlive] Hacyc s.
  induction (acyclic_sn σ (initial_target σ) Hacyc Hlive s) as [s _ IH].
  intros [self Hs]. destruct (State.subclass self) as [|[i|]] eqn:Hk.
  - exists (Done s). split; [|by eauto]. split; [done|]. exists 1.
    intros [|fuel] Hfuel; [lia|]. by eapply get_nested_initial_state_simple.
  - assert (Hst : initial_target σ s (InitialState.target i)) by (by exists self, i).
    destruct (IH _ Hst (Hlive _ _ Hst)) as (r & [Hr [n Hn]] & Hres).
    exists r. split; [|done]. split; [done|]. exists (S n).
    intros [|fuel] Hfuel; [lia|]. simpl. unfold get_state. rewrite Hs. simpl.
    rewrite Hk. simpl. unfold InitialState_get_nested_initial_state.
    apply Hn. lia.
  - exists (Raised No_initial_state). split; [|by left]. split; [done|]. exists 1.
    intros [|fuel] Hfuel; [lia|]. simpl. unfold get_state. rewrite Hs. simpl.
    by rewrite Hk.
Qed.

(** C9, as the code has it.  In a tree whose containment relation is
    acyclic and where the initial pseudo state of every composite state
    targets one of the states the composite contains,
    [get_nested_initial_state] ends on every state, with a state or with
    the error of a composite state that has no initial pseudo state.  In a
    tree whose [parent_state] links are acyclic, [get_depth] ends on every
    state and returns 0 for a state without parent and the depth of the
    parent plus 1 otherwise. *)
Theorem tree_recursions_terminate σ :
  references_live σ →
  (acyclic (contains σ) →
   initial_states_contained σ →
   ∀ s, is_Some (state_objs σ !! s) →
     ∃ r, settles (λ fuel, get_nested_initial_state fuel σ s) r ∧
          (r = Raised No_initial_state ∨ ∃ t, r = Done t)) ∧
  (acyclic (parent_of σ) →
   ∀ s self, state_objs σ !! s = Some self →
     ∃ d, settles (λ fuel, get_depth fuel σ s) (Done d) ∧
          match State.parent_state self with
          | None => d = 0
          | Some p => ∃ dp, settles (λ fuel, get_depth fuel σ p) (Done dp) ∧ d = dp + 1
          end).
Proof.
  intros Hlive. split.
  - intros Hacyc Hcontained. apply get_nested_initial_state_settles; [done|].
    intros x Hx. apply (Hacyc x). by eapply tc_subrel.
  - by apply get_depth_settles.
Qed.

Lemma tree_recursions_terminate_witness :
  (∃ r, settles (λ fuel, get_nested_initial_state fuel nested_store 0) r ∧
        (r = Raised No_initial_state ∨ ∃ t, r = Done t)) ∧
  (∃ d, settles (λ fuel, get_depth fuel nested_store 2) (Done d) ∧
        ∃ dp, settles (λ fuel, get_depth fuel nested_store 1) (Done dp) ∧ d = dp + 1).
Proof.
  destruct (tree_recursions_terminate nested_store nested_references_live)
    as [Hresolve Hdepth].
  split.
  - refine (Hresolve nested_contains_acyclic nested_initial_states_contained 0 _).
    by eexists.
  - exact (Hdepth nested_parent_acyclic 2 nested_S3 eq_refl).
Defined.

(** C9 as stated fails on a composite state whose initial pseudo state
    targets the composite itself.  The state contains nothing and has no
    parent, so containment and parent links are acyclic, yet the
    resolution chain never ends: whatever the number of nested calls
    allowed, it is used up. *)
Lemma tree_recursions_counterexample :
  references_live loop_store ∧
  acyclic (contains loop_store) ∧
  acyclic (parent_of loop_store) ∧
  state_objs loop_store !! 0 = Some loop_C ∧
  (∀ fuel, get_nested_initial_state fuel loop_store 0 = OutOfFuel) ∧
  ¬ ∃ r, settles (λ fuel, get_nested_initial_state fuel loop_store 0) r.
Proof.
  assert (Hloop : ∀ fuel, get_nested_initial_state fuel loop_store 0 = OutOfFuel).
  { induction fuel as [|fuel IH]; [reflexivity|]. exact IH. }
  split; [|split; [|split; [|split; [|split]]]].
  - split.
    + intros s p (self & Hs & Hp). store_cases Hs. discriminate.
    + intros c s (self & i & Hc & Hk & <-). store_cases Hc.
      injection Hk as <-. by eexists.
  - apply (acyclic_ranked _ (λ x, x)). intros c s (self & Hc & Hin).
    store_cases Hc. by apply elem_of_nil in Hin.
  - apply (acyclic_ranked _ (λ x, x)). intros s p (self & Hs & Hp).
    store_cases Hs. discriminate.
  - reflexivity.
  - exact Hloop.
  - intros (r & Hr & n & Hn). apply Hr. rewrite <- (Hn n) by lia. apply Hloop.
Qed.

(** * Further properties of the tree queries *)

Lemma bind_Done_or_Raised {A B : Type} (m : outcome A) (k : A → outcome B) (e : exn) :
  (x ← m; k x) = Raised e → (∃ a, m = Done a ∧ k a = Raised e) ∨ m = Raised e.
Proof.
  destruct m as [a|e'| |]; simpl; try discriminate.
  - intros H. left. eauto.
  - intros [= ->]. by right.
Qed.

(** ** Links are functional *)

Lemma initial_target_functional σ s x y :
  initial_target σ s x → initial_target σ s y → x = y.
Proof.
  intros (self & i & Hs & Hk & <-) (self' & i' & Hs' & Hk' & <-). congruence.
Qed.

Lemma parent_of_functional σ s x y :
  parent_of σ s x → parent_of σ s y → x = y.
Proof. intros (self & Hs & Hp) (self' & Hs' & Hp'). congruence. Qed.

(** On a cycle of functional links, the next state is on the cycle too. *)
Lemma tc_cycle_next (R : relation nat) s p :
  (∀ x y z, R x y → R x z → y = z) →
  tc R s s → R s p → tc R p p.
Proof.
  intros Hfun Hcycle Hsp. inversion Hcycle as [x y H|x y z H Htc]; subst.
  - rewrite (Hfun _ _ _ Hsp H). by apply tc_once.
  - rewrite (Hfun _ _ _ Hsp H). by eapply tc_r.
Qed.

(** One call of each recursion, when the link exists. *)
Lemma get_nested_initial_state_step σ fuel s c :
  initial_target σ s c →
  get_nested_initial_state (S fuel) σ s = get_nested_initial_state fuel σ c.
Proof.
  intros (self & i & Hs & Hk & <-). simpl. unfold get_state. rewrite Hs. simpl.
  rewrite Hk. reflexivity.
Qed.

Lemma get_depth_step σ fuel s p :
  parent_of σ s p →
  get_depth (S fuel) σ s = (d ← get_depth fuel σ p; Done (d + 1)).
Proof.
  intros (self & Hs & Hp). simpl. unfold get_state. rewrite Hs. simpl.
  rewrite Hp. reflexivity.
Qed.

(** ** Which state [get_nested_initial_state] returns *)

Lemma get_nested_initial_state_Done_chain fuel : ∀ σ s t,
  get_nested_initial_state fuel σ s = Done t →
  ∃ n, n < fuel ∧ initial_chain σ n s t.
Proof.
  induction fuel as [|fuel IH]; intros σ s t H; [discriminate|]. simpl in H.
  bind_inv H as self Hs. apply get_state_Done in Hs.
  destruct (State.subclass self) as [|[i|]] eqn:Hk.
  - apply Done_inj in H as <-. exists 0. split; [lia|]. by eapply chain_simple.
  - apply IH in H as (n & Hn & Hchain). exists (S n). split; [lia|].
    by eapply chain_composite.
  - discriminate.
Qed.

(** X1.  [get_nested_initial_state] returns [t] within [fuel] nested calls
    exactly when the initial pseudo states lead from the state to [t]
    through fewer than [fuel] composite states; the state returned is always
    a simple one, and asking it again gives the same state. *)
Theorem get_nested_initial_state_returns fuel σ s t :
  (get_nested_initial_state fuel σ s = Done t ↔
     ∃ n, n < fuel ∧ initial_chain σ n s t) ∧
  (get_nested_initial_state fuel σ s = Done t →
     (∃ self, state_objs σ !! t = Some self ∧ State.subclass self = State.Simple) ∧
     get_nested_initial_state fuel σ t = Done t).
Proof.
  split.
  - split; [apply get_nested_initial_state_Done_chain|].
    intros (n & Hn & Hchain). by eapply get_nested_initial_state_chain.
  - intros H. destruct fuel as [|fuel]; [discriminate|].
    apply get_nested_initial_state_Done_chain in H as (n & _ & Hchain).
    destruct (initial_chain_ends_simple _ _ _ _ Hchain) as (self & Ht & Hk).
    split; [by exists self|]. by eapply get_nested_initial_state_simple.
Qed.

Lemma get_nested_initial_state_returns_witness :
  get_nested_initial_state 3 nested_store 0 = Done 2 ∧
  get_nested_initial_state 3 nested_store 2 = Done 2.
Proof.
  destruct (get_nested_initial_state_returns 3 nested_store 0 2) as [Hiff Hsimple].
  assert (H : get_nested_initial_state 3 nested_store 0 = Done 2).
  { apply Hiff. exists 2. split; [lia|]. apply nested_chain. }
  split; [exact H|]. exact (proj2 (Hsimple H)).
Defined.

(** X2.  [get_nested_initial_state] raises within [fuel] nested calls
    exactly when the initial pseudo states lead, through fewer than [fuel]
    composite states, to a composite state that has no initial pseudo
    state; the error is then [ValueError('No initial state.')]. *)
Theorem get_nested_initial_state_raises fuel σ s e :
  get_nested_initial_state fuel σ s = Raised e ↔
  e = No_initial_state ∧
  ∃ n c self,
    n < fuel ∧
    nsteps (initial_target σ) n s c ∧
    state_objs σ !! c = Some self ∧
    State.subclass self = State.Composite None.
Proof.
  split.
  - revert s. induction fuel as [|fuel IH]; intros s H; [discriminate|].
    simpl in H. apply bind_Done_or_Raised in H as [(self & Hs & H)|H].
    + apply get_state_Done in Hs.
      destruct (State.subclass self) as [|[i|]] eqn:Hk.
      * discriminate.
      * destruct (IH _ H) as (-> & n & c & self' & Hn & Hsteps & Hc & Hk').
        split; [done|]. exists (S n), c, self'. split; [lia|]. split; [|done].
        eapply nsteps_l; [|exact Hsteps]. by exists self, i.
      * injection H as <-. split; [done|]. exists 0, s, self.
        split; [lia|]. split; [constructor|done].
    + unfold get_state, deref in H. destruct (state_objs σ !! s); discriminate.
  - intros (-> & n & c & self & Hn & Hsteps & Hc & Hk). revert fuel Hn.
    induction Hsteps as [c|n s y c Hsy _ IH]; intros fuel Hn.
    + destruct fuel as [|fuel]; [lia|]. simpl. unfold get_state. rewrite Hc. simpl.
      rewrite Hk. reflexivity.
    + destruct fuel as [|fuel]; [lia|].
      rewrite (get_nested_initial_state_step _ _ _ _ Hsy). apply IH; [done..|lia].
Qed.

Lemma get_nested_initial_state_raises_witness :
  get_nested_initial_state 1 orphan_store 0 = Raised No_initial_state.
Proof.
  apply (get_nested_initial_state_raises 1 orphan_store 0 No_initial_state).
  split; [reflexivity|]. exists 0, 0, orphan_C.
  split; [lia|]. split; [constructor|]. split; reflexivity.
Defined.

(** X3.  On a state from which the initial pseudo states lead back to the
    state itself, [get_nested_initial_state] neither returns nor raises:
    every budget of nested calls is used up. *)
Theorem get_nested_initial_state_cycle σ s fuel :
  tc (initial_target σ) s s →
  get_nested_initial_state fuel σ s = OutOfFuel.
Proof.
  revert s. induction fuel as [|fuel IH]; intros s Hcycle; [reflexivity|].
  assert (∃ c, initial_target σ s c) as [c Hsc].
  { inversion Hcycle; subst; eauto. }
  rewrite (get_nested_initial_state_step _ _ _ _ Hsc). apply IH.
  eapply tc_cycle_next; [|exact Hcycle|exact Hsc].
  intros x y z. apply initial_target_functional.
Qed.

Lemma get_nested_initial_state_cycle_witness :
  get_nested_initial_state 1000 loop_store 0 = OutOfFuel.
Proof.
  apply get_nested_initial_state_cycle. apply tc_once.
  exists loop_C, (InitialState.mk 0 None). split; [reflexivity|]. split; reflexivity.
Defined.

(** ** What [get_depth] counts *)

(** X4.  [get_depth] returns [d] within [fuel] nested calls exactly when
    [d] is less than [fuel] and following [parent_state] [d] times from the
    state reaches a state that has no parent: the depth is the number of
    ancestors.  It never raises. *)
Theorem get_depth_counts_ancestors fuel σ s :
  (∀ d, get_depth fuel σ s = Done d ↔
     d < fuel ∧
     ∃ root self,
       nsteps (parent_of σ) d s root ∧
       state_objs σ !! root = Some self ∧
       State.parent_state self = None) ∧
  (∀ e, get_depth fuel σ s ≠ Raised e).
Proof.
  split.
  - intros d. split.
    + revert s d. induction fuel as [|fuel IH]; intros s d H; [discriminate|].
      simpl in H. bind_inv H as self Hs. apply get_state_Done in Hs.
      destruct (State.parent_state self) as [p|] eqn:Hp.
      * bind_inv H as d' Hd'. apply Done_inj in H as <-.
        destruct (IH _ _ Hd') as (Hlt & root & self' & Hsteps & Hroot & Hnone).
        split; [lia|]. exists root, self'. split; [|done].
        rewrite Nat.add_1_r. eapply nsteps_l; [|exact Hsteps]. by exists self.
      * apply Done_inj in H as <-. split; [lia|]. exists s, self.
        split; [constructor|done].
    + intros (Hlt & root & self & Hsteps & Hroot & Hnone). revert fuel Hlt.
      induction Hsteps as [root|d s p root Hsp _ IH]; intros fuel Hlt.
      * destruct fuel as [|fuel]; [lia|]. simpl. unfold get_state.
        rewrite Hroot. simpl. by rewrite Hnone.
      * destruct fuel as [|fuel]; [lia|]. rewrite (get_depth_step _ _ _ _ Hsp).
        rewrite (IH Hroot fuel) by lia. simpl. by rewrite Nat.add_1_r.
  - revert s. induction fuel as [|fuel IH]; intros s e H; [discriminate|].
    simpl in H. unfold get_state, deref in H.
    destruct (state_objs σ !! s) as [self|]; [|discriminate]. simpl in H.
    destruct (State.parent_state self) as [p|]; [|discriminate].
    destruct (get_depth fuel σ p) eqn:Hd; try discriminate.
    injection H as <-. by eapply IH.
Qed.

Lemma get_depth_counts_ancestors_witness :
  get_depth 3 nested_store 2 = Done 2.
Proof.
  apply (proj1 (get_depth_counts_ancestors 3 nested_store 2)).
  split; [lia|]. exists 0, nested_S1. split; [|split; reflexivity].
  eapply nsteps_l; [by exists nested_S3|].
  eapply nsteps_l; [by exists nested_S2|]. constructor.
Defined.

(** X5.  On a state whose [parent_state] links lead back to the state
    itself, [get_depth] does not return: every budget of nested calls is
    used up. *)
Theorem get_depth_cycle σ s fuel :
  tc (parent_of σ) s s →
  get_depth fuel σ s = OutOfFuel.
Proof.
  revert s. induction fuel as [|fuel IH]; intros s Hcycle; [reflexivity|].
  assert (∃ p, parent_of σ s p) as [p Hsp].
  { inversion Hcycle; subst; eauto. }
  rewrite (get_depth_step _ _ _ _ Hsp), IH; [reflexivity|].
  eapply tc_cycle_next; [|exact Hcycle|exact Hsp].
  intros x y z. apply parent_of_functional.
Qed.

Lemma get_depth_cycle_witness : get_depth 1000 knot_store 0 = OutOfFuel.
Proof.
  apply get_depth_cycle. eapply tc_l; [|apply tc_once].
  - eexists. split; reflexivity.
  - eexists. split; reflexivity.
Defined.

(** * Further properties of the wiring of transitions *)

(** ** How the adjacency lists grow *)

Lemma same_node_refl self : same_node self self.
Proof. by repeat split. Qed.

Lemma appended_nil self : appended [] [] self self.
Proof. split; [apply same_node_refl|]. by rewrite !app_nil_r. Qed.

Lemma appended_trans o1 i1 o2 i2 s1 s2 s3 :
  appended o1 i1 s1 s2 → appended o2 i2 s2 s3 →
  appended (o1 ++ o2)%list (i1 ++ i2)%list s1 s3.
Proof.
  intros ((A1 & A2 & A3 & A4 & A5 & A6) & Ho1 & Hi1)
         ((B1 & B2 & B3 & B4 & B5 & B6) & Ho2 & Hi2).
  split; [repeat split; congruence|].
  rewrite Ho2, Hi2, Ho1, Hi1, <- !app_assoc. done.
Qed.

Lemma states_appended_refl σ : states_appended (λ _, []) (λ _, []) σ σ.
Proof.
  intros s. destruct (state_objs σ !! s); constructor. apply appended_nil.
Qed.

Lemma states_appended_trans o1 i1 o2 i2 σ1 σ2 σ3 :
  states_appended o1 i1 σ1 σ2 → states_appended o2 i2 σ2 σ3 →
  states_appended (λ s, (o1 s ++ o2 s)%list) (λ s, (i1 s ++ i2 s)%list) σ1 σ3.
Proof.
  intros H1 H2 s. specialize (H1 s). specialize (H2 s).
  destruct H1 as [x y Hxy|]; inversion H2 as [y' z Hyz|]; subst; constructor.
  by eapply appended_trans.
Qed.

Lemma states_appended_ext o i o' i' σ σ' :
  (∀ s, o s = o' s) → (∀ s, i s = i' s) →
  states_appended o i σ σ' → states_appended o' i' σ σ'.
Proof. intros Ho Hi H s. rewrite <- Ho, <- Hi. apply H. Qed.

Lemma append_outgoing_appended t a σ :
  transition_objs (append_outgoing t a σ) = transition_objs σ ∧
  states_appended (λ s, if decide (s = a) then [t] else []) (λ _, [])
    σ (append_outgoing t a σ).
Proof.
  split; [reflexivity|]. intros s. unfold append_outgoing, update_state. simpl.
  rewrite lookup_alter. destruct (decide (a = s)) as [->|Hne].
  - rewrite decide_True by done. destruct (state_objs σ !! s) as [self|];
      constructor. split; [by repeat split|]. simpl. by rewrite app_nil_r.
  - rewrite decide_False by done. destruct (state_objs σ !! s) as [self|];
      constructor. apply appended_nil.
Qed.

Lemma append_incoming_appended t a σ :
  transition_objs (append_incoming t a σ) = transition_objs σ ∧
  states_appended (λ _, []) (λ s, if decide (s = a) then [t] else [])
    σ (append_incoming t a σ).
Proof.
  split; [reflexivity|]. intros s. unfold append_incoming, update_state. simpl.
  rewrite lookup_alter. destruct (decide (a = s)) as [->|Hne].
  - rewrite decide_True by done. destruct (state_objs σ !! s) as [self|];
      constructor. split; [by repeat split|]. simpl. by rewrite app_nil_r.
  - rewrite decide_False by done. destruct (state_objs σ !! s) as [self|];
      constructor. apply appended_nil.
Qed.

Lemma create_transition_appended σ new_id a b input output location :
  let t0 := fresh (dom (transition_objs σ)) in
  states_appended (λ s, if decide (s = a) then [t0] else [])
                  (λ s, if decide (s = b) then [t0] else [])
    σ (create_transition σ new_id a b input output location).
Proof.
  intros t0. unfold create_transition, Transition_init. fold t0.
  set (σ1 := mk_store _ _).
  assert (H : states_appended
                (λ s, (if decide (s = a) then [t0] else []) ++ [])%list
                (λ s, [] ++ (if decide (s = b) then [t0] else []))%list
                σ1 (append_incoming t0 b (append_outgoing t0 a σ1))).
  { eapply states_appended_trans;
      [apply append_outgoing_appended|apply append_incoming_appended]. }
  intros s. specialize (H s). subst σ1. simpl in H. rewrite app_nil_r in H. exact H.
Qed.

Lemma first_loop_appended a ts : ∀ σ,
  let σ1 := foldl (λ σ' transition, append_outgoing transition a σ') σ ts in
  transition_objs σ1 = transition_objs σ ∧
  states_appended (λ s, if decide (s = a) then ts else []) (λ _, []) σ σ1.
Proof.
  induction ts as [|t ts IH]; intros σ; simpl.
  - split; [done|]. eapply states_appended_ext; [| |apply states_appended_refl];
      intros s; simpl; repeat case_decide; done.
  - destruct (IH (append_outgoing t a σ)) as [Htr Happ]. split; [by rewrite Htr|].
    eapply states_appended_ext;
      [| |eapply states_appended_trans;
            [apply (append_outgoing_appended t a σ)|exact Happ]].
    + intros s. simpl. by case_decide.
    + intros s. done.
Qed.

Lemma targeting_cons σ s t tr ts :
  transition_objs σ !! t = Some tr →
  targeting σ s (t :: ts) =
    ((if decide (s = Transition.target tr) then [t] else []) ++ targeting σ s ts)%list.
Proof.
  intros Ht. unfold targeting. rewrite filter_cons, Ht. simpl.
  destruct (decide (s = Transition.target tr)) as [->|Hne].
  - by rewrite decide_True.
  - rewrite decide_False; [done|]. congruence.
Qed.

Lemma second_loop_appended σ ts : ∀ σ1,
  transition_objs σ1 = transition_objs σ →
  Forall (λ t, is_Some (transition_objs σ !! t)) ts →
  ∃ σ',
    foldl (λ acc transition,
             σ' ← acc;
             t ← get_transition σ' transition;
             Done (append_incoming transition (Transition.target t) σ'))
          (Done σ1) ts = Done σ' ∧
    transition_objs σ' = transition_objs σ ∧
    states_appended (λ _, []) (λ s, targeting σ s ts) σ1 σ'.
Proof.
  induction ts as [|t ts IH]; intros σ1 Htr Hts; simpl.
  - exists σ1. split; [done|]. split; [done|]. apply states_appended_refl.
  - apply Forall_cons in Hts as [[tr Ht] Hts].
    unfold get_transition at 2. rewrite Htr, Ht. simpl.
    destruct (IH (append_incoming t (Transition.target tr) σ1)) as (σ' & Hfold & Htr' & Happ);
      [done|done|].
    exists σ'. split; [exact Hfold|]. split; [done|].
    eapply states_appended_ext;
      [| |eapply states_appended_trans;
            [apply (append_incoming_appended t (Transition.target tr) σ1)|exact Happ]].
    + done.
    + intros s. simpl. by rewrite (targeting_cons _ _ _ _ _ Ht).
Qed.

Lemma add_transitions_appended σ a ts :
  Forall (λ t, is_Some (transition_objs σ !! t)) ts →
  ∃ σ',
    add_transitions σ a ts = Done σ' ∧
    transition_objs σ' = transition_objs σ ∧
    states_appended (λ s, if decide (s = a) then ts else [])
                    (λ s, targeting σ s ts) σ σ'.
Proof.
  intros Hts. unfold add_transitions.
  destruct (first_loop_appended a ts σ) as [Htr1 Happ1].
  destruct (second_loop_appended σ ts _ Htr1 Hts) as (σ' & Hfold & Htr' & Happ2).
  exists σ'. split; [exact Hfold|]. split; [done|].
  eapply states_appended_ext; [| |eapply states_appended_trans; [exact Happ1|exact Happ2]].
  - intros s. simpl. by rewrite app_nil_r.
  - done.
Qed.



(** ** Wiring keeps the nesting *)

Lemma states_appended_lookup o i σ σ' s self' :
  states_appended o i σ σ' →
  state_objs σ' !! s = Some self' →
  ∃ self, state_objs σ !! s = Some self ∧ appended (o s) (i s) self self'.
Proof.
  intros H Hs. specialize (H s). rewrite Hs in H. inversion H; subst. eauto.
Qed.

Lemma states_appended_is_Some o i σ σ' s :
  states_appended o i σ σ' →
  is_Some (state_objs σ !! s) → is_Some (state_objs σ' !! s).
Proof. intros H [self Hs]. specialize (H s). rewrite Hs in H. inversion H; eauto. Qed.

Lemma states_appended_queries o i σ σ' :
  states_appended o i σ σ' →
  ∀ fuel s,
    get_depth fuel σ' s = get_depth fuel σ s ∧
    get_nested_initial_state fuel σ' s = get_nested_initial_state fuel σ s.
Proof.
  intros H. induction fuel as [|fuel IH]; intros s; [done|]. simpl.
  unfold get_state. destruct (H s) as [self self' ((_ & _ & Hp & _ & _ & Hk) & _)|];
    simpl; [|done].
  rewrite Hp, Hk. split.
  - destruct (State.parent_state self) as [p|]; [|done].
    by rewrite (proj1 (IH p)).
  - destruct (State.subclass self) as [|[init|]]; [done| |done]. simpl.
    unfold InitialState_get_nested_initial_state. apply IH.
Qed.

Lemma second_loop_not_Done ts (acc : outcome store) :
  (∀ σ, acc ≠ Done σ) →
  ∀ σ', foldl (λ acc transition,
                 σ' ← acc;
                 t ← get_transition σ' transition;
                 Done (append_incoming transition (Transition.target t) σ'))
              acc ts ≠ Done σ'.
Proof.
  revert acc. induction ts as [|t ts IH]; intros acc Hacc σ'; simpl; [apply Hacc|].
  apply IH. intros σ. destruct acc; simpl; try done. by destruct (Hacc a).
Qed.

Lemma add_transitions_Done_inv σ a ts σ' :
  add_transitions σ a ts = Done σ' →
  Forall (λ t, is_Some (transition_objs σ !! t)) ts.
Proof.
  unfold add_transitions.
  destruct (first_loop_appended a ts σ) as [Htr _]. revert Htr.
  generalize (foldl (λ σ' transition, append_outgoing transition a σ') σ ts).
  induction ts as [|t ts IH]; intros σ1 Htr H; [constructor|]. simpl in H.
  destruct (transition_objs σ !! t) as [tr|] eqn:Ht.
  - constructor; [by eexists|].
    unfold get_transition at 2 in H. rewrite Htr, Ht in H. simpl in H.
    eapply IH; [|exact H]. done.
  - exfalso. unfold get_transition at 2 in H. rewrite Htr, Ht in H. simpl in H.
    by eapply second_loop_not_Done in H.
Qed.

(** X7.  Wiring transitions changes neither depth nor nested initial
    state: after [create_transition], and after an [add_transitions] that
    returns, [get_depth] and [get_nested_initial_state] give on every state
    what they gave before. *)
Theorem wiring_keeps_nesting :
  (∀ σ new_id a b input output location fuel s,
     let σ' := create_transition σ new_id a b input output location in
     get_depth fuel σ' s = get_depth fuel σ s ∧
     get_nested_initial_state fuel σ' s = get_nested_initial_state fuel σ s) ∧
  (∀ σ a ts σ' fuel s,
     add_transitions σ a ts = Done σ' →
     get_depth fuel σ' s = get_depth fuel σ s ∧
     get_nested_initial_state fuel σ' s = get_nested_initial_state fuel σ s).
Proof.
  split.
  - intros σ new_id a b input output location fuel s σ'.
    eapply states_appended_queries, create_transition_appended.
  - intros σ a ts σ' fuel s H.
    destruct (add_transitions_appended σ a ts (add_transitions_Done_inv _ _ _ _ H))
      as (σ'' & H' & _ & Happ).
    rewrite H in H'. apply Done_inj in H' as <-.
    by eapply states_appended_queries.
Qed.

Lemma wiring_keeps_nesting_witness :
  get_depth 3 door_added 1 = get_depth 3 door_store 1 ∧
  get_nested_initial_state 3 door_added 1 = get_nested_initial_state 3 door_store 1.
Proof.
  refine (proj2 wiring_keeps_nesting door_store 1 [0] door_added 3 1 _).
  vm_compute. reflexivity.
Defined.

(** ** The constructor of transitions and the two ways to wire *)

(** X8.  [create_transition] is the constructor of [Transition] followed by
    [add_transitions] on the one transition built. *)
Theorem create_transition_is_add_transitions σ new_id a b input output location :
  let built := Transition_init σ new_id a b input output location in
  add_transitions built.1 a [built.2] =
    Done (create_transition σ new_id a b input output location).
Proof.
  unfold add_transitions, create_transition, Transition_init. simpl.
  unfold get_transition. simpl. rewrite lookup_insert_eq. reflexivity.
Qed.

Lemma occurrences_not_in t (l : list nat) : t ∉ l → occurrences t l = 0.
Proof.
  induction l as [|x l IH]; intros Hin; [done|].
  apply not_elem_of_cons in Hin as [Hne Hin]. unfold occurrences in *. simpl.
  destruct (Nat.eq_dec x t); [congruence|]. by apply IH.
Qed.

Lemma occurrences_NoDup t (l : list nat) :
  NoDup l → t ∈ l → occurrences t l = 1.
Proof.
  induction 1 as [|x l Hx Hl IH]; intros Hin; [by apply elem_of_nil in Hin|].
  unfold occurrences in *. simpl. destruct (Nat.eq_dec x t) as [->|Hne].
  - f_equal. by apply occurrences_not_in.
  - apply elem_of_cons in Hin as [->|Hin]; [done|]. by apply IH.
Qed.

Lemma occurrences_targeting σ s t tr ts :
  NoDup ts → t ∈ ts →
  transition_objs σ !! t = Some tr →
  occurrences t (targeting σ s ts) = if decide (s = Transition.target tr) then 1 else 0.
Proof.
  intros Hnd Hin Ht. unfold targeting. case_decide as Hs.
  - apply occurrences_NoDup; [by apply NoDup_filter|].
    apply list_elem_of_filter. split; [|done]. rewrite Ht. simpl. by subst.
  - apply occurrences_not_in. intros Hf. apply list_elem_of_filter in Hf as [Hf _].
    rewrite Ht in Hf. simpl in Hf. congruence.
Qed.

Lemma occurrences_targeting_not_in σ s t ts :
  t ∉ ts → occurrences t (targeting σ s ts) = 0.
Proof.
  intros Hin. apply occurrences_not_in. intros Hf.
  apply list_elem_of_filter in Hf as [_ Hf]. done.
Qed.

Lemma occurrences_if_not_in t (P : Prop) `{!Decision P} (ts : list nat) :
  t ∉ ts → occurrences t (if decide P then ts else []) = 0.
Proof. intros Hin. case_decide; [by apply occurrences_not_in|done]. Qed.

(** X9.  [add_transitions] wires transitions that the constructor has
    built: given distinct transitions that are in no list yet and whose
    source is [self], in a store whose other transitions are wired, it
    leaves every transition wired. *)
Theorem add_transitions_wires σ a ts :
  is_Some (state_objs σ !! a) →
  NoDup ts →
  Forall (λ t, ∃ tr, transition_objs σ !! t = Some tr ∧
                     Transition.source tr = a ∧
                     is_Some (state_objs σ !! Transition.target tr) ∧
                     unwired σ t) ts →
  (∀ t tr, transition_objs σ !! t = Some tr → t ∉ ts → wired σ t tr) →
  no_stray_transition σ →
  ∃ σ', add_transitions σ a ts = Done σ' ∧
        adjacency_ok σ' ∧ no_stray_transition σ'.
Proof.
  intros Ha Hnd Hts Hwired Hstray.
  assert (Hlive : Forall (λ t, is_Some (transition_objs σ !! t)) ts).
  { eapply Forall_impl; [exact Hts|]. intros t (tr & Ht & _). by eexists. }
  destruct (add_transitions_appended σ a ts Hlive) as (σ' & Hdone & Htr & Happ).
  exists σ'. split; [exact Hdone|]. rewrite Forall_forall in Hts. split.
  - intros t tr Ht. rewrite Htr in Ht. destruct (decide (t ∈ ts)) as [Hin|Hin].
    + destruct (Hts t Hin) as (tr' & Ht' & Hsrc & Htgt & Hun).
      rewrite Ht in Ht'. injection Ht' as <-.
      split; [rewrite Hsrc; by eapply states_appended_is_Some|].
      split; [by eapply states_appended_is_Some|].
      intros s self' Hs.
      destruct (states_appended_lookup _ _ _ _ _ _ Happ Hs)
        as (self & Hs0 & _ & -> & ->).
      destruct (Hun s self Hs0) as [Ho Hi].
      rewrite !occurrences_app, Ho, Hi, (occurrences_targeting _ _ _ _ _ Hnd Hin Ht).
      rewrite Hsrc. split; [|done]. case_decide; [|done].
      by rewrite occurrences_NoDup.
    + destruct (Hwired t tr Ht Hin) as (Hsrc & Htgt & Hocc).
      split; [by eapply states_appended_is_Some|].
      split; [by eapply states_appended_is_Some|].
      intros s self' Hs.
      destruct (states_appended_lookup _ _ _ _ _ _ Happ Hs)
        as (self & Hs0 & _ & -> & ->).
      destruct (Hocc s self Hs0) as [Ho Hi].
      rewrite !occurrences_app, Ho, Hi, occurrences_targeting_not_in,
        occurrences_if_not_in by done.
      split; lia.
  - intros t Ht s self' Hs. rewrite Htr in Ht.
    assert (Hin : t ∉ ts).
    { intros Hin. destruct (Hts t Hin) as (tr & Ht' & _). congruence. }
    destruct (states_appended_lookup _ _ _ _ _ _ Happ Hs)
      as (self & Hs0 & _ & -> & ->).
    destruct (Hstray t Ht s self Hs0) as [Ho Hi].
    rewrite !occurrences_app, Ho, Hi, occurrences_targeting_not_in,
      occurrences_if_not_in by done.
    done.
Qed.

Lemma Transition_init_loose σ new_id a b input output location :
  adjacency_ok σ → no_stray_transition σ →
  is_Some (state_objs σ !! b) →
  let built := Transition_init σ new_id a b input output location in
  state_objs built.1 = state_objs σ ∧
  (∃ tr, transition_objs built.1 !! built.2 = Some tr ∧
         Transition.source tr = a ∧
         is_Some (state_objs built.1 !! Transition.target tr)) ∧
  unwired built.1 built.2 ∧
  (∀ t tr, transition_objs built.1 !! t = Some tr → t ≠ built.2 → wired built.1 t tr) ∧
  no_stray_transition built.1.
Proof.
  intros Hok Hstray Hb. unfold Transition_init. simpl.
  assert (Hfresh : transition_objs σ !! fresh (dom (transition_objs σ)) = None)
    by apply not_elem_of_dom, is_fresh.
  split; [done|]. split; [|split; [|split]].
  - eexists. rewrite lookup_insert_eq. done.
  - intros s self Hs. by eapply (Hstray _ Hfresh).
  - intros t tr Ht Hne. rewrite lookup_insert_ne in Ht by done. by apply Hok.
  - intros t Ht s self Hs. simpl in *. apply lookup_insert_None in Ht as [Ht _].
    by eapply Hstray.
Qed.

Lemma door_store_adjacency : adjacency_ok door_store ∧ no_stray_transition door_store.
Proof.
  rewrite <- door_store_created.
  apply create_transitions_preserves; [|apply fresh_tree_adjacency, door_fresh_tree].
  repeat constructor; by eexists.
Qed.

Lemma add_transitions_wires_witness :
  ∃ σ', add_transitions door_loose 0 [1] = Done σ' ∧
        adjacency_ok σ' ∧ no_stray_transition σ'.
Proof.
  destruct door_store_adjacency as [Hok Hstray].
  destruct (Transition_init_loose door_store "id-u" 0 0 (Some "z") None None Hok Hstray)
    as (Hstates & (tr & Htr & Hsrc & Htgt) & Hun & Hwired & Hstray'); [by eexists|].
  apply (add_transitions_wires door_loose 0 [1]).
  - by eexists.
  - apply NoDup_singleton.
  - constructor; [|constructor]. exists tr. done.
  - intros t tr' Ht Hin. apply Hwired; [done|]. intros ->. apply Hin. by left.
  - exact Hstray'.
Defined.

(** X10.  The constructor of [Transition] touches no state: the transition
    it builds is in no adjacency list, so that a store whose lists held
    only wired transitions no longer has all its transitions wired until
    the new one is added. *)
Theorem Transition_init_leaves_unwired σ new_id a b input output location :
  no_stray_transition σ →
  is_Some (state_objs σ !! a) →
  let built := Transition_init σ new_id a b input output location in
  state_objs built.1 = state_objs σ ∧
  unwired built.1 built.2 ∧
  ¬ adjacency_ok built.1.
Proof.
  intros Hstray [self Ha]. unfold Transition_init. simpl.
  assert (Hfresh : transition_objs σ !! fresh (dom (transition_objs σ)) = None)
    by apply not_elem_of_dom, is_fresh.
  split; [done|]. split.
  - intros s self' Hs. by eapply (Hstray _ Hfresh).
  - intros Hok. edestruct Hok as (_ & _ & Hocc); [apply lookup_insert_eq|].
    destruct (Hocc a self Ha) as [Ho _]. simpl in Ho.
    destruct (Hstray _ Hfresh a self Ha) as [Ho' _].
    rewrite Ho' in Ho. by rewrite decide_True in Ho.
Qed.

Lemma Transition_init_leaves_unwired_witness :
  state_objs door_loose = state_objs door_store ∧
  unwired door_loose 1 ∧
  ¬ adjacency_ok door_loose.
Proof.
  refine (Transition_init_leaves_unwired door_store "id-u" 0 0 (Some "z") None None
            (proj2 door_store_adjacency) _).
  by eexists.
Defined.

(** * Further properties of serialization *)

(** ** What serialization can raise *)

Lemma map_outcome_Raised {A B : Type} (f : A → outcome B) (l : list A) e :
  map_outcome f l = Raised e → ∃ x, x ∈ l ∧ f x = Raised e.
Proof.
  induction l as [|x l IH]; [discriminate|]. simpl. intros H.
  apply bind_Done_or_Raised in H as [(y & Hy & H)|H].
  - apply bind_Done_or_Raised in H as [(ys & Hys & H)|H]; [discriminate|].
    destruct (IH H) as (x' & Hin & Hx'). exists x'. split; [by right|done].
  - exists x. split; [by left|done].
Qed.

Lemma map_outcome_Done {A B : Type} (f : A → outcome B) (l : list A) ys :
  map_outcome f l = Done ys → Forall2 (λ x y, f x = Done y) l ys.
Proof.
  revert ys. induction l as [|x l IH]; intros ys H; simpl in H.
  - apply Done_inj in H as <-. constructor.
  - bind_inv H as y Hy. bind_inv H as ys' Hys. apply Done_inj in H as <-.
    constructor; [done|]. by apply IH.
Qed.

Lemma filter_outcome_Raised {A : Type} (p : A → outcome bool) (l : list A) e :
  filter_outcome p l = Raised e → ∃ x, x ∈ l ∧ p x = Raised e.
Proof.
  induction l as [|x l IH]; [discriminate|]. simpl. intros H.
  apply bind_Done_or_Raised in H as [(y & Hy & H)|H].
  - apply bind_Done_or_Raised in H as [(ys & Hys & H)|H]; [discriminate|].
    destruct (IH H) as (x' & Hin & Hx'). exists x'. split; [by right|done].
  - exists x. split; [by left|done].
Qed.

Lemma get_state_no_raise σ a e : get_state σ a ≠ Raised e.
Proof. unfold get_state, deref. by destruct (state_objs σ !! a). Qed.

Lemma get_transition_no_raise σ a e : get_transition σ a ≠ Raised e.
Proof. unfold get_transition, deref. by destruct (transition_objs σ !! a). Qed.

Lemma target_is_final_no_raise σ t e : target_is_final σ t ≠ Raised e.
Proof.
  unfold target_is_final, get_state, deref.
  by destruct (state_objs σ !! Transition.target t).
Qed.

Lemma Transition_to_dict_no_raise σ t e : Transition_to_dict σ t ≠ Raised e.
Proof.
  unfold Transition_to_dict, get_state, deref.
  by destruct (state_objs σ !! Transition.target t).
Qed.

Lemma RuntimeState_to_dict_no_raise σ r e : RuntimeState_to_dict σ r ≠ Raised e.
Proof.
  unfold RuntimeState_to_dict, get_state, deref.
  destruct (state_objs σ !! RuntimeState.current_state r) as [cs|]; [|done].
  simpl. by destruct (State.is_final cs).
Qed.

Lemma State_construct_dict_no_raise σ self attributes children refs e :
  State_construct_dict σ self attributes children refs ≠ Raised e.
Proof.
  unfold State_construct_dict. intros H.
  apply bind_Done_or_Raised in H as [(outgoing & _ & H)|H].
  2: { apply map_outcome_Raised in H as (x & _ & H).
       by apply get_transition_no_raise in H. }
  apply bind_Done_or_Raised in H as [(l1 & _ & H)|H].
  2: { apply filter_outcome_Raised in H as (x & _ & H).
       apply bind_Done_or_Raised in H as [(b & _ & H)|H]; [discriminate|].
       by apply target_is_final_no_raise in H. }
  apply bind_Done_or_Raised in H as [(l2 & _ & H)|H].
  2: { apply filter_outcome_Raised in H as (x & _ & H).
       by apply target_is_final_no_raise in H. }
  apply bind_Done_or_Raised in H as [(ts & _ & H)|H].
  2: { apply map_outcome_Raised in H as (x & _ & H).
       by apply Transition_to_dict_no_raise in H. }
  apply bind_Done_or_Raised in H as [(fts & _ & H)|H]; [discriminate|].
  apply map_outcome_Raised in H as (x & _ & H).
  by apply Transition_to_dict_no_raise in H.
Qed.

Lemma State_to_dict_Raised fuel : ∀ σ a e,
  State_to_dict fuel σ a = Raised e →
  e = No_initial_state ∧
  ∃ c self,
    rtc (contains σ) a c ∧
    state_objs σ !! c = Some self ∧
    State.subclass self = State.Composite None.
Proof.
  induction fuel as [|fuel IH]; intros σ a e H; [discriminate|]. simpl in H.
  apply bind_Done_or_Raised in H as [(self & Hs & H)|H];
    [|by apply get_state_no_raise in H].
  apply get_state_Done in Hs.
  destruct (State.subclass self) as [|[i|]] eqn:Hk.
  - by apply State_construct_dict_no_raise in H.
  - simpl in H. apply bind_Done_or_Raised in H as [(sts & _ & H)|H].
    + apply bind_Done_or_Raised in H as [(tgt & _ & H)|H];
        [by apply State_construct_dict_no_raise in H
        |by apply get_state_no_raise in H].
    + apply map_outcome_Raised in H as (c & Hin & H).
      destruct (IH _ _ _ H) as (-> & c' & self' & Hrtc & Hc' & Hk').
      split; [done|]. exists c', self'. split; [|done].
      eapply rtc_l; [|exact Hrtc]. by exists self.
  - injection H as <-. split; [done|]. by exists a, self.
Qed.

(** X11.  Serialization raises nothing but [ValueError('No initial
    state.')]: transitions and runtime snapshots never raise, and a state
    or a state machine raises only that error, and only when a composite
    state without initial pseudo state is the state itself or lies below it
    by containment. *)
Theorem to_dict_raises_only_No_initial_state :
  (∀ σ t e, Transition_to_dict σ t ≠ Raised e) ∧
  (∀ σ r e, RuntimeState_to_dict σ r ≠ Raised e) ∧
  (∀ fuel σ a e,
     State_to_dict fuel σ a = Raised e →
     e = mk_exn "ValueError" "No initial state." ∧
     ∃ c self,
       rtc (contains σ) a c ∧
       state_objs σ !! c = Some self ∧
       State.subclass self = State.Composite None) ∧
  (∀ fuel σ m e,
     StateMachine_to_dict fuel σ m = Raised e →
     e = mk_exn "ValueError" "No initial state." ∧
     ∃ a c self,
       a ∈ StateMachine.states m ∧
       rtc (contains σ) a c ∧
       state_objs σ !! c = Some self ∧
       State.subclass self = State.Composite None).
Proof.
  split; [apply Transition_to_dict_no_raise|].
  split; [apply RuntimeState_to_dict_no_raise|].
  split; [apply State_to_dict_Raised|].
  intros fuel σ m e H. unfold StateMachine_to_dict in H.
  apply bind_Done_or_Raised in H as [(sts & _ & H)|H].
  - apply bind_Done_or_Raised in H as [(init & _ & H)|H]; [discriminate|].
    destruct (StateMachine.initial_state m) as [i|]; [|discriminate].
    apply bind_Done_or_Raised in H as [(tgt & _ & H)|H]; [discriminate|].
    by apply get_state_no_raise in H.
  - apply map_outcome_Raised in H as (a & Hin & H).
    destruct (State_to_dict_Raised _ _ _ _ H) as (-> & c & self & Hrtc & Hc & Hk).
    split; [done|]. by exists a, c, self.
Qed.

Lemma to_dict_raises_only_No_initial_state_witness :
  ∃ a c self,
    a ∈ StateMachine.states orphan_machine ∧
    rtc (contains orphan_store) a c ∧
    state_objs orphan_store !! c = Some self ∧
    State.subclass self = State.Composite None.
Proof.
  refine (proj2 (proj2 (proj2 (proj2 to_dict_raises_only_No_initial_state))
                  1 orphan_store orphan_machine No_initial_state _)).
  reflexivity.
Defined.

(** ** No partial record *)

Lemma State_to_dict_unset_below σ a c self :
  simple_states_empty σ →
  rtc (contains σ) a c →
  state_objs σ !! c = Some self →
  State.subclass self = State.Composite None →
  ∀ fuel v, State_to_dict fuel σ a ≠ Done v.
Proof.
  intros Hsimple Hrtc Hc Hk.
  induction Hrtc as [c|a b c (self_a & Ha & Hin) _ IH]; intros [|fuel] v; try done.
  - simpl. unfold get_state. rewrite Hc. simpl. by rewrite Hk.
  - specialize (IH Hc). simpl. unfold get_state. rewrite Ha. simpl.
    destruct (State.subclass self_a) as [|[i|]] eqn:Hka; [|simpl|done].
    + rewrite (Hsimple a self_a Ha Hka) in Hin. by apply elem_of_nil in Hin.
    + intros H. bind_inv H as sts Hsts. apply map_outcome_Done in Hsts.
      apply list_elem_of_lookup in Hin as [k Hk'].
      destruct (Forall2_lookup_l _ _ _ _ _ Hsts Hk') as (r & _ & Hr).
      by apply IH in Hr.
Qed.

(** X12.  There is no partial record: in a tree where only composite states
    contain states, if a composite state without initial pseudo state is a
    state itself or lies below it by containment, that state never
    serializes, and neither does a state machine that holds it, whatever
    the recursion budget. *)
Theorem to_dict_fails_with_unset_below σ a c self :
  simple_states_empty σ →
  rtc (contains σ) a c →
  state_objs σ !! c = Some self →
  State.subclass self = State.Composite None →
  (∀ fuel v, State_to_dict fuel σ a ≠ Done v) ∧
  (∀ fuel m v, a ∈ StateMachine.states m → StateMachine_to_dict fuel σ m ≠ Done v).
Proof.
  intros Hsimple Hrtc Hc Hk. split; [by eapply State_to_dict_unset_below|].
  intros fuel m v Hin H. unfold StateMachine_to_dict in H.
  bind_inv H as sts Hsts. apply map_outcome_Done in Hsts.
  apply list_elem_of_lookup in Hin as [k Hk'].
  destruct (Forall2_lookup_l _ _ _ _ _ Hsts Hk') as (r & _ & Hr).
  by eapply State_to_dict_unset_below in Hr.
Qed.

Lemma to_dict_fails_with_unset_below_witness :
  (∀ fuel v, State_to_dict fuel half_store 0 ≠ Done v) ∧
  (∀ fuel m v, 0 ∈ StateMachine.states m → StateMachine_to_dict fuel half_store m ≠ Done v).
Proof.
  apply (to_dict_fails_with_unset_below half_store 0 1 half_Q).
  - intros s self Hs Hk. store_cases Hs; done.
  - apply rtc_once. exists half_P. split; [reflexivity|]. by left.
  - reflexivity.
  - reflexivity.
Defined.

(** ** What a record holds *)

Lemma ASTElement_construct_dict_entries self a c r :
  let v := PDict (ASTElement_construct_dict self a c r) in
  entry "id" v = Some (PStr (ASTElement.id self)) ∧
  entry "type" v = Some (PStr (ModelElement.type (ASTElement.base self))) ∧
  record_id v = Some (ASTElement.id self).
Proof.
  unfold record_id, entry, ASTElement_construct_dict.
  destruct (ASTElement.location self); repeat split; reflexivity.
Qed.

Lemma State_construct_dict_record σ self attributes children refs v :
  State_construct_dict σ self attributes children refs = Done v →
  ∃ ts fts,
    v = PDict (ASTElement_construct_dict (State.ast self)
                 (attributes ∪ {[ "name" := opt_str (State.name self) ]})
                 (children ∪ {[ "transitions" := PList ts;
                                "final transitions" := PList fts ]})
                 refs).
Proof.
  unfold State_construct_dict. intros H. do 5 bind_inv H.
  apply Done_inj in H as <-. eauto.
Qed.

Lemma State_to_dict_contents fuel σ a self v :
  state_objs σ !! a = Some self →
  State_to_dict (S fuel) σ a = Done v →
  entry "id" v = Some (PStr (State.id self)) ∧
  entry "type" v = Some (PStr (ModelElement.type (ASTElement.base (State.ast self)))) ∧
  field "attributes" v = Some {[ "name" := opt_str (State.name self) ]} ∧
  ∃ children,
    field "children" v = Some children ∧
    match State.subclass self with
    | State.Simple =>
        field "refs" v = Some ∅ ∧
        dom children = {[ "transitions"; "final transitions" ]}
    | State.Composite None => False
    | State.Composite (Some i) =>
        ∃ tgt sts,
          state_objs σ !! InitialState.target i = Some tgt ∧
          field "refs" v = Some {[ "initialState" := PStr (State.id tgt) ]} ∧
          dom children = {[ "transitions"; "final transitions"; "states" ]} ∧
          children !! "states" = Some (PList sts) ∧
          Forall2 (λ c r, State_to_dict fuel σ c = Done r) (State.states self) sts
    end.
Proof.
  intros Ha H. simpl in H. bind_inv H as self' Hs. apply get_state_Done in Hs.
  rewrite Ha in Hs. injection Hs as <-.
  destruct (State.subclass self) as [|[i|]].
  - apply State_construct_dict_record in H as (ts & fts & ->).
    destruct (ASTElement_construct_dict_entries (State.ast self)
                (∅ ∪ {[ "name" := opt_str (State.name self) ]})
                (∅ ∪ {[ "transitions" := PList ts; "final transitions" := PList fts ]})
                ∅) as (Hid & Hty & _).
    destruct (ASTElement_construct_dict_field (State.ast self)
                (∅ ∪ {[ "name" := opt_str (State.name self) ]})
                (∅ ∪ {[ "transitions" := PList ts; "final transitions" := PList fts ]})
                ∅) as (Hat & Hch & Hrefs).
    split; [exact Hid|]. split; [exact Hty|].
    split; [by rewrite Hat, (left_id_L ∅ (∪))|].
    eexists. split; [exact Hch|]. split; [exact Hrefs|]. reflexivity.
  - simpl in H. bind_inv H as sts Hsts. bind_inv H as tgt Htgt.
    apply get_state_Done in Htgt. apply map_outcome_Done in Hsts.
    apply State_construct_dict_record in H as (ts & fts & ->).
    destruct (ASTElement_construct_dict_entries (State.ast self)
                (∅ ∪ {[ "name" := opt_str (State.name self) ]})
                ({[ "states" := PList sts ]} ∪
                 {[ "transitions" := PList ts; "final transitions" := PList fts ]})
                {[ "initialState" := PStr (State.id tgt) ]}) as (Hid & Hty & _).
    destruct (ASTElement_construct_dict_field (State.ast self)
                (∅ ∪ {[ "name" := opt_str (State.name self) ]})
                ({[ "states" := PList sts ]} ∪
                 {[ "transitions" := PList ts; "final transitions" := PList fts ]})
                {[ "initialState" := PStr (State.id tgt) ]}) as (Hat & Hch & Hrefs).
    split; [exact Hid|]. split; [exact Hty|].
    split; [by rewrite Hat, (left_id_L ∅ (∪))|].
    eexists. split; [exact Hch|]. exists tgt, sts.
    split; [done|]. split; [exact Hrefs|]. split; [reflexivity|].
    split; [reflexivity|done].
  - discriminate.
Qed.

(** X13.  The record of a state is filed under the state's id and type; its
    attributes are ['name'] and nothing else, so finality is not among
    them.  A simple state has no refs and the two transition buckets as
    only children.  A composite state has one ref, ['initialState'], the id
    of the direct target of its initial pseudo state, and a third child,
    ['states'], the records of the states it contains, in their order. *)
Theorem State_to_dict_record fuel σ a self v :
  state_objs σ !! a = Some self →
  State_to_dict (S fuel) σ a = Done v →
  entry "id" v = Some (PStr (State.id self)) ∧
  entry "type" v = Some (PStr (ModelElement.type (ASTElement.base (State.ast self)))) ∧
  field "attributes" v = Some {[ "name" := opt_str (State.name self) ]} ∧
  ∃ children,
    field "children" v = Some children ∧
    match State.subclass self with
    | State.Simple =>
        field "refs" v = Some ∅ ∧
        dom children = {[ "transitions"; "final transitions" ]}
    | State.Composite None => False
    | State.Composite (Some i) =>
        ∃ tgt sts,
          state_objs σ !! InitialState.target i = Some tgt ∧
          field "refs" v = Some {[ "initialState" := PStr (State.id tgt) ]} ∧
          dom children = {[ "transitions"; "final transitions"; "states" ]} ∧
          children !! "states" = Some (PList sts) ∧
          Forall2 (λ c r, State_to_dict fuel σ c = Done r) (State.states self) sts
    end.
Proof. apply State_to_dict_contents. Qed.

Lemma State_to_dict_record_witness :
  ∃ v,
    State_to_dict 3 nested_store 0 = Done v ∧
    entry "id" v = Some (PStr "id-S1") ∧
    entry "type" v = Some (PStr "stateMachine.state") ∧
    field "attributes" v = Some {[ "name" := PStr "S1" ]} ∧
    ∃ children,
      field "children" v = Some children ∧
      ∃ tgt sts,
        state_objs nested_store !! 1 = Some tgt ∧
        field "refs" v = Some {[ "initialState" := PStr (State.id tgt) ]} ∧
        dom children = {[ "transitions"; "final transitions"; "states" ]} ∧
        children !! "states" = Some (PList sts) ∧
        Forall2 (λ c r, State_to_dict 2 nested_store c = Done r) [1] sts.
Proof.
  eexists. split; [vm_compute; reflexivity|].
  refine (State_to_dict_record 2 nested_store 0 nested_S1 _ eq_refl _).
  vm_compute. reflexivity.
Defined.

Lemma StateMachine_to_dict_contents fuel σ m v :
  StateMachine_to_dict fuel σ m = Done v →
  entry "id" v = Some (PStr (ASTElement.id (StateMachine.ast m))) ∧
  entry "type" v =
    Some (PStr (ModelElement.type (ASTElement.base (StateMachine.ast m)))) ∧
  field "attributes" v = Some {[ "name" := PStr (StateMachine.name m) ]} ∧
  ∃ sts init,
    field "children" v = Some {[ "states" := PList sts ]} ∧
    Forall2 (λ c r, State_to_dict fuel σ c = Done r) (StateMachine.states m) sts ∧
    field "refs" v = Some {[ "initialState" := PStr init ]} ∧
    match StateMachine.initial_state m with
    | None => init = ""
    | Some i =>
        ∃ tgt, state_objs σ !! InitialState.target i = Some tgt ∧ init = State.id tgt
    end.
Proof.
  unfold StateMachine_to_dict. intros H. bind_inv H as sts Hsts.
  bind_inv H as init Hinit. apply Done_inj in H as <-.
  apply map_outcome_Done in Hsts.
  destruct (ASTElement_construct_dict_entries (StateMachine.ast m)
              {[ "name" := PStr (StateMachine.name m) ]}
              {[ "states" := PList sts ]}
              {[ "initialState" := PStr init ]}) as (Hid & Hty & _).
  destruct (ASTElement_construct_dict_field (StateMachine.ast m)
              {[ "name" := PStr (StateMachine.name m) ]}
              {[ "states" := PList sts ]}
              {[ "initialState" := PStr init ]}) as (Hat & Hch & Hrefs).
  split; [exact Hid|]. split; [exact Hty|]. split; [exact Hat|].
  exists sts, init. split; [done|]. split; [done|]. split; [done|].
  destruct (StateMachine.initial_state m) as [i|].
  - bind_inv Hinit as tgt Htgt. apply get_state_Done in Htgt.
    apply Done_inj in Hinit as <-. by exists tgt.
  - by apply Done_inj in Hinit as <-.
Qed.

(** X14.  The record of a state machine is filed under the machine's id
    and type, its only attribute is ['name'], its only child is ['states'],
    the records of its states in their order, and its only ref is
    ['initialState'], the id of the direct target of the initial pseudo
    state, or the empty string without one. *)
Theorem StateMachine_to_dict_record fuel σ m v :
  StateMachine_to_dict fuel σ m = Done v →
  entry "id" v = Some (PStr (ASTElement.id (StateMachine.ast m))) ∧
  entry "type" v =
    Some (PStr (ModelElement.type (ASTElement.base (StateMachine.ast m)))) ∧
  field "attributes" v = Some {[ "name" := PStr (StateMachine.name m) ]} ∧
  ∃ sts init,
    field "children" v = Some {[ "states" := PList sts ]} ∧
    Forall2 (λ c r, State_to_dict fuel σ c = Done r) (StateMachine.states m) sts ∧
    field "refs" v = Some {[ "initialState" := PStr init ]} ∧
    match StateMachine.initial_state m with
    | None => init = ""
    | Some i =>
        ∃ tgt, state_objs σ !! InitialState.target i = Some tgt ∧ init = State.id tgt
    end.
Proof. apply StateMachine_to_dict_contents. Qed.

Lemma StateMachine_to_dict_record_witness :
  ∃ v,
    StateMachine_to_dict 1 door_store door_machine = Done v ∧
    entry "id" v = Some (PStr "id-M") ∧
    entry "type" v = Some (PStr "stateMachine.stateMachine") ∧
    field "attributes" v = Some {[ "name" := PStr "M" ]} ∧
    ∃ sts init,
      field "children" v = Some {[ "states" := PList sts ]} ∧
      Forall2 (λ c r, State_to_dict 1 door_store c = Done r) [0; 1] sts ∧
      field "refs" v = Some {[ "initialState" := PStr init ]} ∧
      ∃ tgt, state_objs door_store !! 0 = Some tgt ∧ init = State.id tgt.
Proof.
  eexists. split; [vm_compute; reflexivity|].
  refine (StateMachine_to_dict_record 1 door_store door_machine _ _).
  vm_compute. reflexivity.
Defined.

(** ** References name records *)

Lemma record_id_of_State fuel σ a self v :
  state_objs σ !! a = Some self →
  State_to_dict fuel σ a = Done v →
  record_id v = Some (State.id self).
Proof.
  intros Ha H. destruct fuel as [|fuel]; [discriminate|]. simpl in H.
  bind_inv H as self' Hs. apply get_state_Done in Hs.
  rewrite Ha in Hs. injection Hs as <-.
  destruct (State.subclass self) as [|[i|]].
  - apply State_construct_dict_record in H as (ts & fts & ->).
    apply ASTElement_construct_dict_entries.
  - simpl in H. bind_inv H as sts Hsts. bind_inv H as tgt Htgt.
    apply State_construct_dict_record in H as (ts & fts & ->).
    apply ASTElement_construct_dict_entries.
  - discriminate.
Qed.

(** X15.  The ids found in refs are those under which the states referred
    to file their own records: [refs['target']] of a transition,
    [refs['initialState']] of a composite state and of a state machine and
    [refs['currentState']] of a runtime snapshot each equal the ['id'] of
    the record of the state they point at.  Likewise the
    [info['transition']] of a [TransitionStep] is the ['id'] of the record
    of the transition. *)
Theorem refs_are_record_ids :
  (∀ σ t v refs id fuel r,
     Transition_to_dict σ t = Done v →
     field "refs" v = Some refs →
     refs !! "target" = Some (PStr id) →
     State_to_dict fuel σ (Transition.target t) = Done r →
     record_id r = Some id) ∧
  (∀ fuel σ a self i v refs id fuel' r,
     state_objs σ !! a = Some self →
     State.subclass self = State.Composite (Some i) →
     State_to_dict fuel σ a = Done v →
     field "refs" v = Some refs →
     refs !! "initialState" = Some (PStr id) →
     State_to_dict fuel' σ (InitialState.target i) = Done r →
     record_id r = Some id) ∧
  (∀ fuel σ m i v refs id fuel' r,
     StateMachine.initial_state m = Some i →
     StateMachine_to_dict fuel σ m = Done v →
     field "refs" v = Some refs →
     refs !! "initialState" = Some (PStr id) →
     State_to_dict fuel' σ (InitialState.target i) = Done r →
     record_id r = Some id) ∧
  (∀ σ rs v refs id fuel r,
     RuntimeState_to_dict σ rs = Done v →
     field "refs" v = Some refs →
     refs !! "currentState" = Some (PStr id) →
     State_to_dict fuel σ (RuntimeState.current_state rs) = Done r →
     record_id r = Some id) ∧
  (∀ σ a t v,
     transition_objs σ !! a = Some t →
     Transition_to_dict σ t = Done v →
     ∃ step,
       TransitionStep_init σ a = Done step ∧
       Step.type step = "stateMachine.transition" ∧
       Step.info step !! "transition" = PStr <$> record_id v).
Proof.
  split; [|split; [|split; [|split]]].
  - intros σ t v refs id fuel r Hv Hrefs Hid Hr.
    unfold Transition_to_dict in Hv. bind_inv Hv as tgt Htgt.
    apply get_state_Done in Htgt. apply Done_inj in Hv as <-.
    rewrite (proj2 (proj2 (ASTElement_construct_dict_field _ _ _ _))) in Hrefs.
    injection Hrefs as <-. destruct (State.is_final tgt); simpl in Hid.
    + by rewrite lookup_empty in Hid.
    + rewrite lookup_insert_eq in Hid. injection Hid as <-.
      by eapply record_id_of_State.
  - intros fuel σ a self i v refs id fuel' r Ha Hk Hv Hrefs Hid Hr.
    destruct fuel as [|fuel]; [discriminate|].
    destruct (State_to_dict_contents _ _ _ _ _ Ha Hv) as (_ & _ & _ & ch & _ & Hsub).
    rewrite Hk in Hsub. destruct Hsub as (tgt & sts & Htgt & Hrefs' & _).
    rewrite Hrefs' in Hrefs. injection Hrefs as <-.
    rewrite lookup_singleton_eq in Hid. injection Hid as <-.
    by eapply record_id_of_State.
  - intros fuel σ m i v refs id fuel' r Hi Hv Hrefs Hid Hr.
    destruct (StateMachine_to_dict_contents _ _ _ _ Hv)
      as (_ & _ & _ & sts & init & _ & _ & Hrefs' & Hinit).
    rewrite Hi in Hinit. destruct Hinit as (tgt & Htgt & ->).
    rewrite Hrefs' in Hrefs. injection Hrefs as <-.
    rewrite lookup_singleton_eq in Hid. injection Hid as <-.
    by eapply record_id_of_State.
  - intros σ rs v refs id fuel r Hv Hrefs Hid Hr.
    unfold RuntimeState_to_dict in Hv. bind_inv Hv as cs Hcs.
    apply get_state_Done in Hcs. destruct (State.is_final cs).
    + apply Done_inj in Hv as <-. cbn [field] in Hrefs.
      change (Some (∅ : gmap string pyval) = Some refs) in Hrefs.
      injection Hrefs as <-. by rewrite lookup_empty in Hid.
    + apply Done_inj in Hv as <-.
      change (Some ({[ "currentState" := PStr (State.id cs) ]} : gmap string pyval)
              = Some refs) in Hrefs.
      injection Hrefs as <-.
      rewrite lookup_singleton_eq in Hid. injection Hid as <-.
      by eapply record_id_of_State.
  - intros σ a t v Ha Hv. unfold TransitionStep_init, get_transition. rewrite Ha.
    simpl. eexists. split; [reflexivity|]. split; [reflexivity|]. simpl.
    unfold Transition_to_dict in Hv. bind_inv Hv as tgt Htgt.
    apply Done_inj in Hv as <-.
    rewrite (proj2 (proj2 (ASTElement_construct_dict_entries _ _ _ _))).
    apply lookup_singleton_eq.
Qed.

Lemma refs_are_record_ids_witness :
  ∃ v refs r step,
    Transition_to_dict nested_store nested_t0 = Done v ∧
    field "refs" v = Some refs ∧
    refs !! "target" = Some (PStr "id-S3") ∧
    State_to_dict 1 nested_store 2 = Done r ∧
    record_id r = Some "id-S3" ∧
    TransitionStep_init nested_store 0 = Done step ∧
    Step.info step !! "transition" = PStr <$> record_id v.
Proof.
  destruct refs_are_record_ids as (Ht & _ & _ & _ & Hstep).
  destruct (Hstep nested_store 0 nested_t0 _ eq_refl eq_refl) as (step & Hs & _ & Hinfo).
  eexists _, _, _, step.
  split; [reflexivity|]. split; [reflexivity|]. split; [reflexivity|].
  split; [vm_compute; reflexivity|]. split; [|done].
  refine (Ht nested_store nested_t0 _ _ "id-S3" 1 _ eq_refl eq_refl eq_refl _).
  vm_compute. reflexivity.
Defined.

(** ** What serialization does not read *)

Lemma map_outcome_ext {A B : Type} (f g : A → outcome B) (l : list A) :
  (∀ x, x ∈ l → f x = g x) → map_outcome f l = map_outcome g l.
Proof.
  induction l as [|x l IH]; intros H; [done|]. simpl.
  rewrite (H x) by (by left). rewrite IH; [done|]. intros y Hy. apply H. by right.
Qed.

Lemma filter_outcome_ext {A : Type} (p q : A → outcome bool) (l : list A) :
  (∀ x, x ∈ l → p x = q x) → filter_outcome p l = filter_outcome q l.
Proof.
  induction l as [|x l IH]; intros H; [done|]. simpl.
  rewrite (H x) by (by left). rewrite IH; [done|]. intros y Hy. apply H. by right.
Qed.

Lemma same_targets_reads σ σ' :
  same_targets σ σ' →
  ∀ t, target_is_final σ' t = target_is_final σ t ∧
       Transition_to_dict σ' t = Transition_to_dict σ t.
Proof.
  intros H t. unfold target_is_final, Transition_to_dict, get_state.
  destruct (H (Transition.target t)) as [self self' [Hid Hfin]|]; simpl; [|done].
  by rewrite Hid, Hfin.
Qed.

Lemma State_construct_dict_same σ σ' self self' attributes children refs :
  transition_objs σ' = transition_objs σ →
  same_targets σ σ' →
  State.ast self' = State.ast self →
  State.name self' = State.name self →
  State.outgoing_transitions self' = State.outgoing_transitions self →
  State_construct_dict σ' self' attributes children refs =
  State_construct_dict σ self attributes children refs.
Proof.
  intros Htr Htargets Hast Hname Hout. unfold State_construct_dict.
  rewrite Hast, Hname, Hout.
  rewrite (map_outcome_ext (get_transition σ') (get_transition σ))
    by (intros x _; unfold get_transition; by rewrite Htr).
  destruct (map_outcome (get_transition σ) (State.outgoing_transitions self))
    as [outgoing| | |]; simpl; try done.
  rewrite (filter_outcome_ext
             (λ transition, b ← target_is_final σ' transition; Done (negb b))
             (λ transition, b ← target_is_final σ transition; Done (negb b)))
    by (intros x _; by rewrite (proj1 (same_targets_reads _ _ Htargets x))).
  rewrite (filter_outcome_ext (target_is_final σ') (target_is_final σ))
    by (intros x _; apply (same_targets_reads _ _ Htargets)).
  destruct (filter_outcome _ outgoing) as [l1| | |]; simpl; try done.
  destruct (filter_outcome _ outgoing) as [l2| | |]; simpl; try done.
  rewrite (map_outcome_ext (Transition_to_dict σ') (Transition_to_dict σ) l1)
    by (intros x _; apply (same_targets_reads _ _ Htargets)).
  rewrite (map_outcome_ext (Transition_to_dict σ') (Transition_to_dict σ) l2)
    by (intros x _; apply (same_targets_reads _ _ Htargets)).
  done.
Qed.

Lemma wire_equivalent_targets σ σ' : wire_equivalent σ σ' → same_targets σ σ'.
Proof.
  intros [_ H] s. destruct (H s) as [self self' (Hast & _ & Hfin & _)|];
    constructor. unfold State.id. by rewrite Hast.
Qed.

Lemma wire_equivalent_State_to_dict σ σ' :
  wire_equivalent σ σ' →
  ∀ fuel s, State_to_dict fuel σ' s = State_to_dict fuel σ s.
Proof.
  intros Heq. pose proof (wire_equivalent_targets _ _ Heq) as Htargets.
  destruct Heq as [Htr Hstates].
  induction fuel as [|fuel IH]; intros s; [done|]. simpl. unfold get_state.
  destruct (Hstates s) as [self self' (Hast & Hname & Hfin & Hout & Hsts & Hk)|];
    simpl; [|done].
  rewrite Hk. destruct (State.subclass self) as [|[i|]]; [| |done].
  - by apply State_construct_dict_same.
  - simpl. rewrite Hsts.
    rewrite (map_outcome_ext (State_to_dict fuel σ') (State_to_dict fuel σ))
      by (intros x _; apply IH).
    destruct (map_outcome _ (State.states self)) as [sts| | |]; simpl; try done.
    unfold get_state.
    destruct (Htargets (InitialState.target i)) as [tgt tgt' [Hid _]|]; simpl; [|done].
    rewrite Hid. by apply State_construct_dict_same.
Qed.

(** X16.  Serialization reads neither incoming lists nor parents: two trees
    with the same transitions whose states differ at most by
    [incoming_transitions] and [parent_state] give, for every state and
    every state machine, the same record or the same failure. *)
Theorem to_dict_ignores_incoming_and_parent σ σ' :
  wire_equivalent σ σ' →
  (∀ fuel s, State_to_dict fuel σ' s = State_to_dict fuel σ s) ∧
  (∀ fuel m, StateMachine_to_dict fuel σ' m = StateMachine_to_dict fuel σ m).
Proof.
  intros Heq. split; [by apply wire_equivalent_State_to_dict|].
  intros fuel m. unfold StateMachine_to_dict.
  rewrite (map_outcome_ext (State_to_dict fuel σ') (State_to_dict fuel σ))
    by (intros x _; by apply wire_equivalent_State_to_dict).
  destruct (map_outcome _ (StateMachine.states m)) as [sts| | |]; simpl; try done.
  destruct (StateMachine.initial_state m) as [i|]; [|done]. unfold get_state.
  destruct (wire_equivalent_targets _ _ Heq (InitialState.target i))
    as [tgt tgt' [Hid _]|]; simpl; [|done].
  by rewrite Hid.
Qed.

Lemma nested_bare_equivalent : wire_equivalent nested_store nested_bare.
Proof.
  split; [reflexivity|]. intros s. unfold nested_bare. cbn [state_objs].
  rewrite lookup_fmap. generalize (state_objs nested_store !! s).
  intros [self|]; constructor. by repeat split.
Qed.

Lemma to_dict_ignores_incoming_and_parent_witness :
  (∀ fuel s, State_to_dict fuel nested_bare s = State_to_dict fuel nested_store s) ∧
  (∀ fuel m, StateMachine_to_dict fuel nested_bare m =
             StateMachine_to_dict fuel nested_store m).
Proof.
  exact (to_dict_ignores_incoming_and_parent nested_store nested_bare
           nested_bare_equivalent).
Defined.

(** ** Serializing after [create_transition] *)

Lemma map_outcome_app {A B : Type} (f : A → outcome B) (l1 l2 : list A) ys1 ys2 :
  map_outcome f l1 = Done ys1 →
  map_outcome f l2 = Done ys2 →
  map_outcome f (l1 ++ l2)%list = Done (ys1 ++ ys2)%list.
Proof.
  revert ys1. induction l1 as [|x l1 IH]; intros ys1 H1 H2; simpl in *.
  - by apply Done_inj in H1 as <-.
  - bind_inv H1 as y Hy. bind_inv H1 as ys Hys. apply Done_inj in H1 as <-.
    rewrite Hy. simpl. by rewrite (IH _ Hys H2).
Qed.

Lemma filter_outcome_app {A : Type} (p : A → outcome bool) (l1 l2 : list A) r1 r2 :
  filter_outcome p l1 = Done r1 →
  filter_outcome p l2 = Done r2 →
  filter_outcome p (l1 ++ l2)%list = Done (r1 ++ r2)%list.
Proof.
  revert r1. induction l1 as [|x l1 IH]; intros r1 H1 H2; simpl in *.
  - by apply Done_inj in H1 as <-.
  - bind_inv H1 as b Hb. bind_inv H1 as r Hr. apply Done_inj in H1 as <-.
    rewrite Hb. simpl. rewrite (IH _ Hr H2). simpl. by destruct b.
Qed.

Lemma State_construct_dict_inv σ self attributes children refs v :
  State_construct_dict σ self attributes children refs = Done v →
  ∃ outgoing l1 l2 ts fts,
    map_outcome (get_transition σ) (State.outgoing_transitions self) = Done outgoing ∧
    filter_outcome (λ transition, b ← target_is_final σ transition; Done (negb b))
      outgoing = Done l1 ∧
    filter_outcome (target_is_final σ) outgoing = Done l2 ∧
    map_outcome (Transition_to_dict σ) l1 = Done ts ∧
    map_outcome (Transition_to_dict σ) l2 = Done fts ∧
    v = PDict (ASTElement_construct_dict (State.ast self)
                 (attributes ∪ {[ "name" := opt_str (State.name self) ]})
                 (children ∪ {[ "transitions" := PList ts;
                                "final transitions" := PList fts ]})
                 refs).
Proof.
  unfold State_construct_dict. intros H.
  bind_inv H as outgoing Hmap. bind_inv H as l1 Hf1. bind_inv H as l2 Hf2.
  bind_inv H as ts Hts. bind_inv H as fts Hfts. apply Done_inj in H as <-.
  by exists outgoing, l1, l2, ts, fts.
Qed.

Lemma states_appended_targets o i σ σ' :
  states_appended o i σ σ' → same_targets σ σ'.
Proof.
  intros H s. destruct (H s) as [self self' ((Hast & _ & _ & Hfin & _) & _)|];
    constructor. unfold State.id. by rewrite Hast.
Qed.

Lemma simple_record_eq self ts fts :
  PDict (ASTElement_construct_dict (State.ast self)
           (∅ ∪ {[ "name" := opt_str (State.name self) ]})
           (∅ ∪ {[ "transitions" := PList ts; "final transitions" := PList fts ]})
           ∅) = simple_record self ts fts.
Proof. unfold simple_record. by rewrite !(left_id_L ∅ (∪)). Qed.

Lemma State_to_dict_simple fuel σ a self :
  state_objs σ !! a = Some self →
  State.subclass self = State.Simple →
  State_to_dict (S fuel) σ a = State_construct_dict σ self ∅ ∅ ∅.
Proof.
  intros Ha Hk. simpl. unfold get_state. rewrite Ha. simpl. by rewrite Hk.
Qed.

(** X17.  After [create_transition] the record of a simple source state is
    what it was, with the record of the new transition added at the end of
    one bucket: of ['final transitions'] when the target is final, of
    ['transitions'] otherwise.  The new record is filed under the id given
    to the transition. *)
Theorem create_transition_extends_record σ new_id a b input output location
    self tgt fuel v :
  state_objs σ !! a = Some self →
  State.subclass self = State.Simple →
  state_objs σ !! b = Some tgt →
  State_to_dict (S fuel) σ a = Done v →
  let σ' := create_transition σ new_id a b input output location in
  let transition :=
    Transition.mk (ASTElement.init new_id "stateMachine.transition" location)
      a b input output in
  ∃ ts fts r,
    v = simple_record self ts fts ∧
    Transition_to_dict σ' transition = Done r ∧
    record_id r = Some new_id ∧
    State_to_dict (S fuel) σ' a =
      Done (simple_record self
              (if State.is_final tgt then ts else ts ++ [r])%list
              (if State.is_final tgt then fts ++ [r] else fts)%list).
Proof.
  intros Ha Hk Hb H σ' transition.
  rewrite (State_to_dict_simple _ _ _ _ Ha Hk) in H.
  apply State_construct_dict_inv in H
    as (outgoing & l1 & l2 & ts & fts & Hmap & Hf1 & Hf2 & Hts & Hfts & ->).
  rewrite simple_record_eq.
  pose proof (create_transition_appended σ new_id a b input output location) as Happ.
  cbv zeta in Happ. fold σ' in Happ.
  destruct (create_transition_transitions σ new_id a b input output location)
    as [Hfresh Htr]. fold σ' transition in Htr.
  set (t0 := fresh (dom (transition_objs σ))) in *.
  pose proof (states_appended_targets _ _ _ _ Happ) as Htargets.
  clearbody σ'.
  (* the objects at [a] and [b] afterwards *)
  pose proof (Happ a) as Ha'. rewrite Ha in Ha'.
  inversion Ha' as [x self' ((Hast & Hname & _ & _ & _ & Hk') & Hout & _) Hx Hself'|];
    subst x. symmetry in Hself'.
  rewrite decide_True in Hout by done.
  pose proof (Htargets b) as Hb'. rewrite Hb in Hb'.
  inversion Hb' as [y tgt' [Hid Hfin] Hy Htgt'|]; subst y. symmetry in Htgt'.
  (* the record of the new transition *)
  assert (Hr : ∃ r, Transition_to_dict σ' transition = Done r ∧ record_id r = Some new_id).
  { rewrite (Transition_to_dict_eq σ' transition tgt' Htgt'). eexists.
    split; [reflexivity|]. apply ASTElement_construct_dict_entries. }
  destruct Hr as (r & Hr & Hrid). exists ts, fts, r.
  split; [done|]. split; [done|]. split; [done|].
  (* reading the old transitions gives what it gave *)
  assert (Hmap' : map_outcome (get_transition σ') (State.outgoing_transitions self)
                  = Done outgoing).
  { rewrite <- Hmap. apply map_outcome_ext. intros x Hx.
    apply map_outcome_Done in Hmap. apply list_elem_of_lookup in Hx as [k Hx].
    destruct (Forall2_lookup_l _ _ _ _ _ Hmap Hx) as (y & _ & Hy).
    apply get_transition_Done in Hy. unfold get_transition.
    rewrite Htr, lookup_insert_ne; [done|]. intros <-. congruence. }
  assert (Hnew : get_transition σ' t0 = Done transition).
  { unfold get_transition. by rewrite Htr, lookup_insert_eq. }
  assert (Hfinal : target_is_final σ' transition = Done (State.is_final tgt)).
  { unfold target_is_final, get_state. simpl. rewrite Htgt'. simpl. by rewrite Hfin. }
  rewrite (State_to_dict_simple _ _ _ _ Hself') by congruence.
  unfold State_construct_dict. rewrite Hout, Hast, Hname.
  rewrite (map_outcome_app _ _ [t0] outgoing [transition] Hmap')
    by (simpl; by rewrite Hnew).
  simpl.
  rewrite (filter_outcome_app
             (λ transition, b ← target_is_final σ' transition; Done (negb b))
             outgoing [transition] l1
             (if State.is_final tgt then [] else [transition])).
  2: { rewrite <- Hf1. apply filter_outcome_ext. intros x _.
       by rewrite (proj1 (same_targets_reads _ _ Htargets x)). }
  2: { simpl. rewrite Hfinal. simpl. by destruct (State.is_final tgt). }
  simpl.
  rewrite (filter_outcome_app (target_is_final σ') outgoing [transition] l2
             (if State.is_final tgt then [transition] else [])).
  2: { rewrite <- Hf2. apply filter_outcome_ext. intros x _.
       apply (same_targets_reads _ _ Htargets). }
  2: { simpl. rewrite Hfinal. simpl. by destruct (State.is_final tgt). }
  simpl.
  assert (Hold : ∀ l rs, map_outcome (Transition_to_dict σ) l = Done rs →
                         map_outcome (Transition_to_dict σ') l = Done rs).
  { intros l rs <-. apply map_outcome_ext. intros x _.
    apply (same_targets_reads _ _ Htargets). }
  destruct (State.is_final tgt).
  - rewrite app_nil_r, (Hold _ _ Hts). simpl.
    rewrite (map_outcome_app _ l2 [transition] fts [r] (Hold _ _ Hfts))
      by (simpl; by rewrite Hr).
    simpl. by rewrite simple_record_eq.
  - rewrite app_nil_r, (map_outcome_app _ l1 [transition] ts [r] (Hold _ _ Hts))
      by (simpl; by rewrite Hr).
    simpl. rewrite (Hold _ _ Hfts). simpl. by rewrite simple_record_eq.
Qed.

Lemma create_transition_extends_record_witness :
  ∃ ts fts r,
    door_fresh_A_record = simple_record door_fresh_A ts fts ∧
    Transition_to_dict
      (create_transition door_fresh "id-t" 0 1 (Some "x") (Some "y") None)
      door_transition = Done r ∧
    record_id r = Some "id-t" ∧
    State_to_dict 1 (create_transition door_fresh "id-t" 0 1 (Some "x") (Some "y") None) 0
      = Done (simple_record door_fresh_A ts (fts ++ [r])%list).
Proof.
  refine (create_transition_extends_record door_fresh "id-t" 0 1 (Some "x") (Some "y")
            None door_fresh_A (State.set_incoming_transitions [] door_B) 0
            door_fresh_A_record eq_refl eq_refl eq_refl _).
  vm_compute. reflexivity.
Defined.

(** ** States as the constructors leave them *)

Lemma get_depth_root fuel σ a self :
  state_objs σ !! a = Some self →
  State.parent_state self = None →
  get_depth (S fuel) σ a = Done 0.
Proof.
  intros Ha Hp. simpl. unfold get_state. rewrite Ha. simpl. by rewrite Hp.
Qed.

Lemma State_to_dict_unset fuel σ a self :
  state_objs σ !! a = Some self →
  State.subclass self = State.Composite None →
  State_to_dict (S fuel) σ a = Raised No_initial_state ∧
  get_nested_initial_state (S fuel) σ a = Raised No_initial_state.
Proof.
  intros Ha Hk. simpl. unfold get_state. rewrite Ha. simpl. by rewrite Hk.
Qed.

(** X18.  A composite state as its constructor leaves it is at depth 0 and
    has no initial pseudo state: serializing it and resolving its nested
    initial state both raise [ValueError('No initial state.')]. *)
Theorem CompositeState_init_unset σ new_id name location fuel :
  let built := CompositeState_init σ new_id name location in
  get_depth (S fuel) built.1 built.2 = Done 0 ∧
  State_to_dict (S fuel) built.1 built.2 = Raised No_initial_state ∧
  get_nested_initial_state (S fuel) built.1 built.2 = Raised No_initial_state.
Proof.
  intros built.
  assert (H : ∃ self, state_objs built.1 !! built.2 = Some self ∧
                      State.parent_state self = None ∧
                      State.subclass self = State.Composite None).
  { eexists. split; [apply lookup_insert_eq|]. done. }
  destruct H as (self & Hself & Hp & Hk). clearbody built.
  split; [by eapply get_depth_root|]. by eapply State_to_dict_unset.
Qed.

(** X19.  A simple state as its constructor leaves it serializes to a
    record filed under the id drawn for it, with its name and two empty
    buckets, and is its own nested initial state. *)
Theorem SimpleState_init_record σ new_id name parent_state is_final location fuel :
  let built := SimpleState_init σ new_id name parent_state is_final location in
  ∃ self,
    state_objs built.1 !! built.2 = Some self ∧
    State_to_dict (S fuel) built.1 built.2 = Done (simple_record self [] []) ∧
    record_id (simple_record self [] []) = Some new_id ∧
    field "attributes" (simple_record self [] []) = Some {[ "name" := opt_str name ]} ∧
    get_nested_initial_state (S fuel) built.1 built.2 = Done built.2.
Proof.
  intros built.
  assert (H : ∃ self, state_objs built.1 !! built.2 = Some self ∧
                      State.id self = new_id ∧
                      State.name self = name ∧
                      State.outgoing_transitions self = [] ∧
                      State.subclass self = State.Simple).
  { eexists. split; [apply lookup_insert_eq|]. done. }
  destruct H as (self & Hself & Hid & Hname & Hout & Hk). clearbody built.
  exists self. split; [done|]. split; [|split; [|split]].
  - rewrite (State_to_dict_simple _ _ _ _ Hself Hk).
    unfold State_construct_dict. rewrite Hout. simpl. by rewrite simple_record_eq.
  - rewrite <- Hid. apply ASTElement_construct_dict_entries.
  - rewrite <- Hname. apply ASTElement_construct_dict_field.
  - by eapply get_nested_initial_state_simple.
Qed.

(** * Properties of the protocol envelopes *)

(** X20.  Optional fields reach the record exactly when they are set: the
    record of a breakpoint parameter has ['name'] and ['isMultivalued'],
    ['primitiveType'] (the value of the enum member) when a primitive type
    is set and ['objectType'] when an object type is set, both when both
    are, and no other key; the record of a breakpoint check has
    ['isActivated'], ['message'] when a message is set, and no other key. *)
Theorem optional_fields_when_set :
  (∀ p,
     let d := BreakpointParameter_to_dict p in
     d !! "name" = Some (EStr (BreakpointParameter.name p)) ∧
     d !! "isMultivalued" = Some (EBool (BreakpointParameter.isMultivalued p)) ∧
     d !! "primitiveType" =
       (λ t, EStr (PrimitiveType_value t)) <$> BreakpointParameter.primitiveType p ∧
     d !! "objectType" = EStr <$> BreakpointParameter.objectType p ∧
     dom d ⊆ {[ "name"; "isMultivalued"; "primitiveType"; "objectType" ]}) ∧
  (∀ r,
     let d := CheckBreakpointResponse_to_dict r in
     d !! "isActivated" = Some (EBool (CheckBreakpointResponse.isActivated r)) ∧
     d !! "message" = EStr <$> CheckBreakpointResponse.message r ∧
     dom d ⊆ {[ "isActivated"; "message" ]}).
Proof.
  split.
  - intros [name [t|] [o|] multi]; cbv zeta; unfold BreakpointParameter_to_dict;
      cbn [BreakpointParameter.name BreakpointParameter.primitiveType
           BreakpointParameter.objectType BreakpointParameter.isMultivalued];
      (split; [reflexivity|]); (split; [reflexivity|]); (split; [reflexivity|]);
      (split; [reflexivity|]); intros k Hk; apply elem_of_dom in Hk as [x Hk];
      repeat (apply lookup_insert_Some in Hk as [[<- _]|[_ Hk]]; [set_solver|]);
      apply lookup_singleton_Some in Hk as [<- _]; set_solver.
  - intros [activated [m|]]; cbv zeta; unfold CheckBreakpointResponse_to_dict;
      cbn [CheckBreakpointResponse.isActivated CheckBreakpointResponse.message];
      (split; [reflexivity|]); (split; [reflexivity|]);
      intros k Hk; apply elem_of_dom in Hk as [x Hk];
      repeat (apply lookup_insert_Some in Hk as [[<- _]|[_ Hk]]; [set_solver|]);
      apply lookup_singleton_Some in Hk as [<- _]; set_solver.
Qed.

(** X21.  The response to [getBreakpointTypes] built without argument holds
    the empty list; in general its only key holds one record per
    breakpoint type, in order, each with the four keys ['id'], ['name'],
    ['description'] and ['parameters'], the last holding the records of the
    parameters, in order. *)
Theorem GetBreakpointTypesResponse_to_dict_records :
  GetBreakpointTypesResponse_to_dict (GetBreakpointTypesResponse_init None) =
    {[ "breakpointTypes" := EList [] ]} ∧
  ∀ types, ∃ recs,
    GetBreakpointTypesResponse_to_dict (GetBreakpointTypesResponse_init (Some types)) =
      {[ "breakpointTypes" := EList recs ]} ∧
    Forall2
      (λ ty rec, ∃ d ps,
         rec = EDict d ∧
         dom d = {[ "id"; "name"; "description"; "parameters" ]} ∧
         d !! "id" = Some (EStr (BreakpointType.id ty)) ∧
         d !! "name" = Some (EStr (BreakpointType.name ty)) ∧
         d !! "description" = Some (EStr (BreakpointType.description ty)) ∧
         d !! "parameters" = Some (EList ps) ∧
         Forall2 (λ p r, r = EDict (BreakpointParameter_to_dict p))
           (BreakpointType.parameters ty) ps)
      types recs.
Proof.
  split; [reflexivity|]. intros types. eexists. split; [reflexivity|].
  apply Forall2_fmap_r, Forall_Forall2_diag, Forall_forall. intros ty _.
  eexists _, _. split; [reflexivity|]. repeat split; try reflexivity.
  apply Forall2_fmap_r, Forall_Forall2_diag, Forall_forall. done.
Qed.

Lemma ModelElement_to_dict_Raised fuel σ root e :
  ModelElement_to_dict fuel σ root = Raised e → e = No_initial_state.
Proof.
  destruct root as [m|a|a|r]; simpl; intros H.
  - unfold StateMachine_to_dict in H.
    apply bind_Done_or_Raised in H as [(sts & _ & H)|H].
    + apply bind_Done_or_Raised in H as [(init & _ & H)|H]; [discriminate|].
      destruct (StateMachine.initial_state m) as [i|]; [|discriminate].
      apply bind_Done_or_Raised in H as [(tgt & _ & H)|H]; [discriminate|].
      by apply get_state_no_raise in H.
    + apply map_outcome_Raised in H as (a & _ & H).
      by apply State_to_dict_Raised in H as [-> _].
  - by apply State_to_dict_Raised in H as [-> _].
  - apply bind_Done_or_Raised in H as [(t & _ & H)|H];
      [by apply Transition_to_dict_no_raise in H
      |by apply get_transition_no_raise in H].
  - by apply RuntimeState_to_dict_no_raise in H.
Qed.

(** X22.  A response wraps the record of its root under a single key and
    has no partial form.  For a state machine of a well-formed tree the
    parse response is produced, with the machine's record under
    ['astRoot']; whatever the root, a response that fails raises
    [ValueError('No initial state.')]; and the runtime state response of a
    snapshot is always produced, with the snapshot's record under
    ['runtimeStateRoot']. *)
Theorem responses_wrap_records :
  (∀ σ m,
     well_formed σ →
     machine_in σ m →
     ∃ v, settles (λ fuel, ParseResponse_to_dict fuel σ (AStateMachine m))
            (Done (PDict {[ "astRoot" := v ]})) ∧
          wire_record (ASTElement.location (StateMachine.ast m)) v) ∧
  (∀ fuel σ root e,
     (ParseResponse_to_dict fuel σ root = Raised e ∨
      GetRuntimeStateResponse_to_dict fuel σ root = Raised e) →
     e = mk_exn "ValueError" "No initial state.") ∧
  (∀ fuel σ rs cs,
     state_objs σ !! RuntimeState.current_state rs = Some cs →
     ∃ v, GetRuntimeStateResponse_to_dict fuel σ (ARuntimeState rs) =
            Done (PDict {[ "runtimeStateRoot" := v ]}) ∧
          wire_record None v).
Proof.
  split; [|split].
  - intros σ m Hwf Hin.
    destruct (StateMachine_to_dict_total σ m Hwf Hin) as [v Hv].
    exists v. split.
    + destruct Hv as [_ [n Hn]]. split; [done|]. exists n. intros fuel Hfuel.
      unfold ParseResponse_to_dict. simpl. by rewrite (Hn fuel Hfuel).
    + destruct (settles_Done _ _ Hv) as [fuel Hfuel].
      by eapply StateMachine_to_dict_wire.
  - intros fuel σ root e [H|H];
      apply bind_Done_or_Raised in H as [(v & _ & H)|H]; try discriminate;
      by eapply ModelElement_to_dict_Raised.
  - intros fuel σ rs cs Hcs. unfold GetRuntimeStateResponse_to_dict. simpl.
    unfold RuntimeState_to_dict, get_state. rewrite Hcs. simpl.
    destruct (State.is_final cs); eexists; (split; [reflexivity|]);
      apply ModelElement_construct_dict_wire.
Qed.

Lemma responses_wrap_records_witness :
  (∃ v, settles (λ fuel, ParseResponse_to_dict fuel nested_store
                           (AStateMachine nested_machine))
          (Done (PDict {[ "astRoot" := v ]})) ∧
        wire_record None v) ∧
  No_initial_state = mk_exn "ValueError" "No initial state." ∧
  (∃ v, GetRuntimeStateResponse_to_dict 0 door_store
          (ARuntimeState (RuntimeState_init "id-r" door_runtime)) =
          Done (PDict {[ "runtimeStateRoot" := v ]}) ∧
        wire_record None v).
Proof.
  destruct responses_wrap_records as (Hparse & Hraise & Hruntime).
  split; [|split].
  - exact (Hparse nested_store nested_machine nested_well_formed nested_machine_in).
  - refine (Hraise 2 half_store (AStateMachine half_machine) No_initial_state _).
    left. vm_compute. reflexivity.
  - exact (Hruntime 0 door_store (RuntimeState_init "id-r" door_runtime) door_B eq_refl).
Defined.

(** X23.  After [create_transition], the step that reports the new
    transition serializes to a record of type ['stateMachine.transition']
    whose [info['transition']] is the id given to the transition, which is
    also the id, and the type the type, of the transition's own record. *)
Theorem TransitionStep_after_create σ new_id a b input output location tgt :
  state_objs σ !! b = Some tgt →
  let σ' := create_transition σ new_id a b input output location in
  let t0 := fresh (dom (transition_objs σ)) in
  ∃ step t v,
    TransitionStep_init σ' t0 = Done step ∧
    Step_to_dict step =
      {[ "type" := PStr "stateMachine.transition";
         "info" := PDict {[ "transition" := PStr new_id ]} ]} ∧
    transition_objs σ' !! t0 = Some t ∧
    Transition_to_dict σ' t = Done v ∧
    entry "id" v = Some (PStr new_id) ∧
    entry "type" v = Some (PStr "stateMachine.transition").
Proof.
  intros Hb σ' t0.
  destruct (create_transition_transitions σ new_id a b input output location)
    as [_ Htr]. fold σ' t0 in Htr.
  pose proof (states_appended_targets _ _ _ _
                (create_transition_appended σ new_id a b input output location) b) as Hb'.
  fold σ' in Hb'. rewrite Hb in Hb'. clearbody σ'.
  inversion Hb' as [x tgt' _ Hx Htgt'|]; subst x. symmetry in Htgt'.
  set (transition :=
         Transition.mk (ASTElement.init new_id "stateMachine.transition" location)
           a b input output) in *.
  eexists _, transition, _. unfold TransitionStep_init, get_transition.
  rewrite Htr, lookup_insert_eq. simpl.
  split; [reflexivity|]. split; [reflexivity|]. split; [reflexivity|].
  rewrite (Transition_to_dict_eq σ' transition tgt' Htgt').
  split; [reflexivity|]. split; apply ASTElement_construct_dict_entries.
Qed.

Lemma TransitionStep_after_create_witness :
  ∃ step t v,
    TransitionStep_init (create_transition door_fresh "id-t" 0 1 (Some "x") (Some "y") None)
      0 = Done step ∧
    Step_to_dict step =
      {[ "type" := PStr "stateMachine.transition";
         "info" := PDict {[ "transition" := PStr "id-t" ]} ]} ∧
    transition_objs (create_transition door_fresh "id-t" 0 1 (Some "x") (Some "y") None)
      !! 0 = Some t ∧
    Transition_to_dict (create_transition door_fresh "id-t" 0 1 (Some "x") (Some "y") None)
      t = Done v ∧
    entry "id" v = Some (PStr "id-t") ∧
    entry "type" v = Some (PStr "stateMachine.transition").
Proof.
  exact (TransitionStep_after_create door_fresh "id-t" 0 1 (Some "x") (Some "y") None
           (State.set_incoming_transitions [] door_B) eq_refl).
Defined.

(** X24.  A state machine as its constructor leaves it serializes whatever
    the tree and the recursion budget: its record is filed under the id
    drawn for it, of type ['stateMachine.stateMachine'], with its name, an
    empty list of states and the empty string as ['initialState'], and with
    a ['location'] entry exactly when a location was given.  The four
    integers given to [Location] are filed under their names, the second
    argument under ['endLine'] and the third under ['column']. *)
Theorem StateMachine_init_record fuel σ new_id name location :
  (∃ v,
     StateMachine_to_dict fuel σ (StateMachine.init new_id name location) = Done v ∧
     entry "id" v = Some (PStr new_id) ∧
     entry "type" v = Some (PStr "stateMachine.stateMachine") ∧
     field "attributes" v = Some {[ "name" := PStr name ]} ∧
     field "children" v = Some {[ "states" := PList [] ]} ∧
     field "refs" v = Some {[ "initialState" := PStr "" ]} ∧
     entry "location" v = (λ l, PDict (Location_to_dict l)) <$> location) ∧
  (∀ line endLine column endColumn,
     Location_to_dict (Location.init line endLine column endColumn) =
       {[ "line" := PInt line;
          "endLine" := PInt endLine;
          "column" := PInt column;
          "endColumn" := PInt endColumn ]}).
Proof.
  split; [|reflexivity].
  eexists. split; [reflexivity|].
  split; [apply ASTElement_construct_dict_entries|].
  split; [apply ASTElement_construct_dict_entries|].
  split; [apply ASTElement_construct_dict_field|].
  split; [apply ASTElement_construct_dict_field|].
  split; [apply ASTElement_construct_dict_field|].
  destruct location as [l|]; reflexivity.
Qed.
